(** * find_GeoNamesID: toponym resolution against the GeoNames gazetteer

    A shallow embedding of [find_GeoNamesID.py] and the properties of its
    bias builder, resolver, article processor and scoring routine.

    Conventions of the embedding:
    - Python exceptions are values of [exn]; a computation that can raise
      returns [res A].
    - The GeoNames web service, the two [lru_cache] tables and the log of
      requests form the [world] threaded through the resolver.
    - GeoNames identifiers are integers ([Z]); [0] is the "not found" value.
      The [predID] column is 64-bit in pandas: where a statement says that a
      run returns, the ids at hand are required to be in that range
      ([int64]).
    - The metrics of [agreement] are exact rationals ([Q]); Python computes
      them in binary64, and raises [ZeroDivisionError] for a zero divisor in
      both number systems.
    - What the program prints on the way is left out; of [agreement], the
      printed values are the result. *)

From Stdlib Require Import QArith.
From stdpp Require Import gmap strings list.

Local Open Scope string_scope.
Local Open Scope Z_scope.
Local Open Scope stdpp_scope.
Local Open Scope list_scope.

(** ** Exceptions and results *)

Inductive exn : Type :=
  | TransportError          (* requests.get / response.json() failed *)
  | KeyError (k : string)   (* a dict has no such key *)
  | TypeError               (* unpacking or storing a value of the wrong shape *)
  | IndexError              (* position out of range *)
  | ZeroDivisionError.

Inductive res (A : Type) : Type :=
  | Ok (a : A)
  | Raise (e : exn).
Arguments Ok {A} a.
Arguments Raise {A} e.

#[global] Instance res_ret : MRet res := λ A a, Ok a.
#[global] Instance res_bind : MBind res := λ A B k r,
  match r with Ok a => k a | Raise e => Raise e end.
#[global] Instance res_fmap : FMap res := λ A B f r,
  match r with Ok a => Ok (f a) | Raise e => Raise e end.

(** ** makeString: the country-bias builder *)

(** [set(codesList)] is iterated by [for code in codesSet]. Python fixes
    neither the order in which a set of strings is iterated nor that two
    equal sets iterate alike (string hashes are salted per process, and
    collisions are resolved by insertion order). An iteration order is
    therefore any function from the list the set was built from to an
    enumeration of its distinct elements. *)
Record set_order : Type := {
  set_iter : list string → list string;
  set_iter_NoDup : ∀ l, NoDup (set_iter l);
  set_iter_elem : ∀ l x, x ∈ set_iter l ↔ x ∈ l
}.

(** [codesList[0]]; the default is never returned by [makeString], see
    [makeString_head_defined] below. *)
Definition first_code (codesList : list string) : string :=
  match codesList with c :: _ => c | [] => "" end.

Definition makeString (O : set_order) (codesList : list string) : string :=
  let codesSet := set_iter O codesList in
  match codesSet with
  | [] => "&countryBias=NL"                        (* len(codesSet) == 0 *)
  | [_] => "&countryBias=" +:+ first_code codesList  (* len(codesSet) == 1 *)
  | code :: _ => "&country=" +:+ code              (* first iteration returns *)
  end.

(** "two or more distinct codes" *)
Definition two_distinct (l : list string) : Prop :=
  ∃ a b, a ∈ l ∧ b ∈ l ∧ a ≠ b.

(** "exactly one distinct code [c]" *)
Definition only_code (c : string) (l : list string) : Prop :=
  l ≠ [] ∧ ∀ x, x ∈ l → x = c.

(** ** agreement: the scoring routine *)

(** A line of the input file, and a row of the dataframe once the resolver
    has added the [predID] column. *)
Record annotation : Type := {
  articleID : string;
  toponym : string;
  geoID : Z;
  isTitle : bool
}.

Record row : Type := {
  annot :> annotation;
  predID : Z
}.

Definition set_predID (r : row) (v : Z) : row :=
  {| annot := annot r; predID := v |}.

(** One iteration of [for row in df.itertuples()], on the pair
    [(totalCorrect, notGuessed)]. *)
Definition tally_step (acc : Z * Z) (r : row) : Z * Z :=
  let '(totalCorrect, notGuessed) := acc in
  let expID := geoID r in
  let predID := predID r in
  if expID =? predID then (totalCorrect + 1, notGuessed)
  else if predID =? 0 then (totalCorrect, notGuessed + 1)
  else (totalCorrect, notGuessed).

Definition tally (df : list row) : Z * Z := fold_left tally_step df (0, 0).

(** Python's [/]: [ZeroDivisionError] on a zero divisor. *)
Definition py_div (a b : Q) : res Q :=
  if Qeq_bool b 0 then Raise ZeroDivisionError else Ok (a / b)%Q.

(** What [agreement] prints. *)
Record metrics : Type := {
  m_total : Z;
  m_precision : Q;
  m_recall : Q;
  m_f1 : Q
}.

Definition score (total totalCorrect notGuessed : Z) : res metrics :=
  let totalGuessed := total - notGuessed in
  precision ← py_div (inject_Z totalCorrect) (inject_Z totalGuessed);
  recall ← py_div (inject_Z totalCorrect) (inject_Z total);
  f1 ← py_div (2 * precision * recall)%Q (precision + recall)%Q;
  Ok {| m_total := total; m_precision := precision;
        m_recall := recall; m_f1 := f1 |}.

Definition agreement (df : list row) : res metrics :=
  let total := Z.of_nat (length df) in
  let '(totalCorrect, notGuessed) := tally df in
  score total totalCorrect notGuessed.

(** The counts the specification names, stated on the dataframe. *)
Definition count_rows (P : row → bool) (df : list row) : Z :=
  Z.of_nat (length (filter (λ r, P r = true) df)).

Definition is_correct (r : row) : bool := geoID r =? predID r.
Definition is_zero (r : row) : bool := predID r =? 0.
Definition is_missed (r : row) : bool := negb (is_correct r) && is_zero r.

(** ** The gazetteer and the memoised resolver *)

(** One entry of the ["geonames"] array. A field is [None] when the JSON
    object has no such key. *)
Record candidate : Type := {
  geonameId : option Z;
  fcode : option string;
  countryCode : option string
}.

(** The decoded body of a search response: the ["geonames"] array when the
    object has that key, and the number of its other keys (such as
    ["totalResultsCount"], or ["status"] in an error reply). *)
Record response : Type := {
  geonames : option (list candidate);
  other_keys : nat
}.

(** [len(data)] *)
Definition len_data (data : response) : nat :=
  (match geonames data with Some _ => 1 | None => 0 end + other_keys data)%nat.

(** [data["geonames"]], [result["geonameId"]], [option["fcode"]] *)
Definition get_geonames (data : response) : res (list candidate) :=
  match geonames data with Some g => Ok g | None => Raise (KeyError "geonames") end.
Definition get_geonameId (c : candidate) : res Z :=
  match geonameId c with Some i => Ok i | None => Raise (KeyError "geonameId") end.
Definition get_fcode (c : candidate) : res string :=
  match fcode c with Some f => Ok f | None => Raise (KeyError "fcode") end.

(** What [findID] returns: a pair in country mode, a bare id otherwise. *)
Inductive findID_result : Type :=
  | CountryRes (id : Z) (countryCode : list string)
  | IdRes (id : Z).

(** The second argument of [findID]: [None] when it is omitted (the default
    [False]), otherwise the string passed. *)
Definition codes_arg : Type := option string.

(** [if codes:] *)
Definition truthy (codes : codes_arg) : bool :=
  match codes with
  | Some s => negb (String.eqb s "")
  | None => false
  end.

(** The state of a run: the URLs requested so far (latest first), the two
    [lru_cache] tables, and, as instrumentation, the arguments of every call
    of [findID] (latest first), whether it was answered from the cache or
    not. *)
Record world : Type := {
  requests : list string;
  calls : list (string * codes_arg);
  findID_cache : gmap (string * codes_arg) findID_result;
  baseline_cache : gmap string Z
}.

Definition empty_world : world :=
  {| requests := []; calls := []; findID_cache := ∅; baseline_cache := ∅ |}.

Definition log_request (URL : string) (w : world) : world :=
  {| requests := URL :: requests w; calls := calls w;
     findID_cache := findID_cache w; baseline_cache := baseline_cache w |}.

Definition log_call (k : string * codes_arg) (w : world) : world :=
  {| requests := requests w; calls := k :: calls w;
     findID_cache := findID_cache w; baseline_cache := baseline_cache w |}.

Definition store_findID (k : string * codes_arg) (v : findID_result)
    (w : world) : world :=
  {| requests := requests w; calls := calls w;
     findID_cache := <[k := v]> (findID_cache w);
     baseline_cache := baseline_cache w |}.

Definition store_baseline (k : string) (v : Z) (w : world) : world :=
  {| requests := requests w; calls := calls w;
     findID_cache := findID_cache w;
     baseline_cache := <[k := v]> (baseline_cache w) |}.

(** Computations of the resolver: they read and change the [world] and
    either return or raise. *)
Definition M (A : Type) : Type := world → res A * world.

#[global] Instance M_ret : MRet M := λ A a w, (Ok a, w).
#[global] Instance M_bind : MBind M := λ A B k m w,
  match m w with
  | (Ok a, w') => k a w'
  | (Raise e, w') => (Raise e, w')
  end.

Definition lift {A} (r : res A) : M A := λ w, (r, w).
Definition raise {A} (e : exn) : M A := λ w, (Raise e, w).

(** The service behind [requests.get(URL)] followed by [response.json()]:
    given the requests made before and the URL, the decoded body, or the
    exception raised. Its answers may change during a run. *)
Definition service : Type := list string → string → res response.

Section resolver.
Context (global_username : string) (geonames_api : service).

(** [requests.get(URL)] and [response.json()] *)
Definition requests_get (URL : string) : M response :=
  λ w, (geonames_api (requests w) URL, log_request URL w).

(** [@lru_cache(maxsize=None)]: a stored result is returned as it is; a
    computed one is stored unless the call raised. *)
Definition lru_baseline (f : string → M Z) (k : string) : M Z :=
  λ w, match baseline_cache w !! k with
       | Some v => (Ok v, w)
       | None =>
           match f k w with
           | (Ok v, w') => (Ok v, store_baseline k v w')
           | (Raise e, w') => (Raise e, w')
           end
       end.

Definition lru_findID (f : string * codes_arg → M findID_result)
    (k : string * codes_arg) : M findID_result :=
  λ w, match findID_cache w !! k with
       | Some v => (Ok v, w)
       | None =>
           match f k w with
           | (Ok v, w') => (Ok v, store_findID k v w')
           | (Raise e, w') => (Raise e, w')
           end
       end.

Definition baseline_URL (placeName : string) : string :=
  "http://api.geonames.org/searchJSON?q=" +:+ placeName
    +:+ "&maxRows=1&username=" +:+ global_username.

Definition findID_baseline_body (placeName : string) : M Z :=
  data ← requests_get (baseline_URL placeName);
  if (len_data data =? 0)%nat then mret 0 else
  geodata ← lift (get_geonames data);
  match geodata with
  | [] => mret 0
  | result :: _ => lift (get_geonameId result)
  end.

Definition findID_baseline : string → M Z := lru_baseline findID_baseline_body.

Definition urlBase : string := "http://api.geonames.org/searchJSON?q=".

Definition biased_URL (placeName codes : string) : string :=
  urlBase +:+ placeName +:+ "&searchlang=nl" +:+ codes
    +:+ "&maxRows=1&username=" +:+ global_username.

Definition country_URL (placeName : string) : string :=
  urlBase +:+ placeName +:+ "&searchlang=nl&maxRows=2&username="
    +:+ global_username.

(** [for option in geodata: ...] followed by [return id, []], where [id]
    is still [0]. *)
Fixpoint scan_options (geodata : list candidate) : res (Z * list string) :=
  match geodata with
  | [] => Ok (0, [])
  | option :: rest =>
      fc ← get_fcode option;
      if String.prefix "PCL" fc then
        id ← get_geonameId option;
        Ok (id, match countryCode option with
                | Some c => [c]
                | None => []
                end)
      else scan_options rest
  end.

Definition findID_body (args : string * codes_arg) : M findID_result :=
  let '(placeName, codes) := args in
  if truthy codes then
    (* find IDs for non-countries *)
    data ← requests_get (biased_URL placeName (default "" codes));
    if (len_data data =? 0)%nat then mret (IdRes 0) else
    geodata ← lift (get_geonames data);
    match geodata with
    | [] => id ← findID_baseline placeName; mret (IdRes id)
    | firstOption :: _ => id ← lift (get_geonameId firstOption); mret (IdRes id)
    end
  else
    (* find country IDs *)
    data ← requests_get (country_URL placeName);
    if (len_data data =? 0)%nat then mret (CountryRes 0 []) else
    geodata ← lift (get_geonames data);
    match geodata with
    | [] => mret (CountryRes 0 [])
    | firstOption :: _ =>
        fc ← lift (get_fcode firstOption);
        if String.eqb fc "CONT" then
          id ← lift (get_geonameId firstOption);
          mret (CountryRes id [])
        else
          '(id, countryCode) ← lift (scan_options geodata);
          mret (CountryRes id countryCode)
    end.

Definition record_call (k : string * codes_arg) : M unit :=
  λ w, (Ok (), log_call k w).

Definition findID (placeName : string) (codes : codes_arg) : M findID_result :=
  _ ← record_call (placeName, codes);
  lru_findID findID_body (placeName, codes).
End resolver.

(** ** processArticle: the two passes over one article *)

(** A dataframe: rows in order, each under its index label. [read_csv]
    numbers the lines of the file, and [groupby] keeps those labels, so the
    labels of a group are distinct. *)
Definition frame (A : Type) : Type := list (nat * A).

Definition labels {A} (df : frame A) : list nat := df.*1.

(** [processedData.at[index, "predID"] = predID] *)
Definition at_predID (df : frame row) (index : nat) (v : Z) : frame row :=
  (λ ir, if (ir.1 =? index)%nat then (ir.1, set_predID ir.2 v) else ir) <$> df.

(** [processedData[processedData["predID"]==0]] *)
Definition unresolved_rows (df : frame row) : frame row :=
  filter (λ ir, predID ir.2 = 0) df.

(** The dataframe [processArticle] starts from: [predID] is 0 everywhere. *)
Definition with_predID_0 (data : frame annotation) : frame row :=
  (λ ia, (ia.1, {| annot := ia.2; predID := 0 |})) <$> data.

Section article.
Context (O : set_order) (global_username : string) (geonames_api : service).

Local Abbreviation findID := (findID global_username geonames_api).

(** The first loop, over [data.iterrows()]. *)
Fixpoint phase_one (rows : frame annotation) (processedData : frame row)
    (codes : list string) : M (frame row * list string) :=
  match rows with
  | [] => mret (processedData, codes)
  | (index, row) :: rest =>
      r ← findID (toponym row) None;
      match r with
      | CountryRes predID countryCode =>
          phase_one rest (at_predID processedData index predID)
                    (codes ++ countryCode)
      | IdRes _ => raise TypeError   (* a bare id cannot be unpacked *)
      end
  end.

(** The second loop, over the rows selected before it starts. *)
Fixpoint phase_two (codesURL : string) (rows : frame row)
    (processedData : frame row) : M (frame row) :=
  match rows with
  | [] => mret processedData
  | (index, row) :: rest =>
      r ← findID (toponym row) (Some codesURL);
      match r with
      | IdRes predID =>
          phase_two codesURL rest (at_predID processedData index predID)
      | CountryRes _ _ => raise TypeError   (* a pair is not an id *)
      end
  end.

Definition processArticle (data : frame annotation) : M (frame row) :=
  match data with
  | [] => raise IndexError            (* data['articleID'].iloc[0] *)
  | _ =>
      let processedData := with_predID_0 data in
      '(processedData, codes) ← phase_one data processedData [];
      let codesURL := makeString O codes in
      phase_two codesURL (unresolved_rows processedData) processedData
  end.
End article.

(** ** The resolver as the specification words it *)

(** The specification's candidate: an id, a feature code, and possibly a
    country code; and the JSON object that carries it. *)
Record Candidate : Type := {
  cand_id : Z;
  featureCode : string;
  cand_country : option string
}.

Definition to_json (c : Candidate) : candidate :=
  {| geonameId := Some (cand_id c); fcode := Some (featureCode c);
     countryCode := cand_country c |}.

(** resolveCountry in the specification's words: the top candidate if it is
    a continent, with no country code; otherwise the first candidate whose
    feature code begins with "PCL", with its country code if present;
    otherwise (0, none). *)
Definition resolveCountry_spec (cands : list Candidate) : Z * option string :=
  match cands with
  | [] => (0, None)
  | top :: _ =>
      if String.eqb (featureCode top) "CONT" then (cand_id top, None)
      else match List.find (λ c, String.prefix "PCL" (featureCode c)) cands with
           | Some c => (cand_id c, cand_country c)
           | None => (0, None)
           end
  end.

(** ** Runs of the resolver *)

(** [extends w w']: [w'] has the requests of [w] and possibly more in front
    of them, and every result stored in [w]. *)
Record extends (w w' : world) : Prop := {
  ext_requests : ∃ new, requests w' = new ++ requests w;
  ext_findID : ∀ k v, findID_cache w !! k = Some v → findID_cache w' !! k = Some v;
  ext_baseline : ∀ k v, baseline_cache w !! k = Some v → baseline_cache w' !! k = Some v
}.

(** [steps w w']: [w'] is reached from [w] by calls of [findID] and
    [findID_baseline] with any arguments, returning or raising. *)
Inductive steps (global_username : string) (geonames_api : service) :
    world → world → Prop :=
  | steps_refl w : steps global_username geonames_api w w
  | steps_findID w placeName codes w' :
      steps global_username geonames_api
            (findID global_username geonames_api placeName codes w).2 w' →
      steps global_username geonames_api w w'
  | steps_baseline w placeName w' :
      steps global_username geonames_api
            (findID_baseline global_username geonames_api placeName w).2 w' →
      steps global_username geonames_api w w'.

(** A service that always answers, with candidates that carry an id and a
    feature code. *)
Definition answers_well (geonames_api : service) : Prop :=
  ∀ hist URL, ∃ cands n,
    geonames_api hist URL
    = Ok {| geonames := Some (to_json <$> cands); other_keys := n |}.

(** A result has the shape of the mode it was computed in: a bare id when
    [codes] is true, a pair otherwise. *)
Definition fits (codes : codes_arg) (v : findID_result) : bool :=
  match v with
  | IdRes _ => truthy codes
  | CountryRes _ _ => negb (truthy codes)
  end.

Definition cache_fits (w : world) : Prop :=
  ∀ placeName codes v,
    findID_cache w !! (placeName, codes) = Some v → fits codes v = true.

(** The arguments [phase_two] passes to [findID], in order. *)
Definition phase_two_calls (codesURL : string) (rows : frame row) :
    list (string * codes_arg) :=
  (λ ir : nat * row, (toponym ir.2, Some codesURL)) <$> (rows : list (nat * row)).

(** ** readTSV: the two modes over a whole file *)

Section readTSV.
Context (O : set_order) (global_username : string) (geonames_api : service).

(** [df["toponym"].apply(findID_baseline)], stored as the [predID] column. *)
Fixpoint apply_baseline (rows : frame annotation) : M (frame row) :=
  match rows with
  | [] => mret []
  | (index, row) :: rest =>
      id ← findID_baseline global_username geonames_api (toponym row);
      rest' ← apply_baseline rest;
      mret ((index, {| annot := row; predID := id |}) :: rest')
  end.

(** The rows of one article, as [groupby("articleID")] hands them over. *)
Definition group (df : frame annotation) (key : string) : frame annotation :=
  filter (λ ia, articleID ia.2 = key) df.

(** [.apply(processArticle)] over the groups, one after the other. *)
Fixpoint apply_groups (keys : list string) (df : frame annotation) :
    M (frame row) :=
  match keys with
  | [] => mret []
  | key :: rest =>
      g ← processArticle O global_username geonames_api (group df key);
      gs ← apply_groups rest df;
      mret (g ++ gs)
  end.

(** readTSV on the dataframe [read_csv] returned, every row of which has an
    article id. The groups are visited in the order [K] lists the distinct
    article ids (pandas sorts them); the rows come back group by group (in
    which order they stand in the result differs between versions of pandas;
    nothing proved below depends on it). *)
Definition readTSV (K : set_order) (df : frame annotation) (baseline : bool) :
    M (frame row) :=
  if baseline then apply_baseline df
  else apply_groups (set_iter K ((λ ia, articleID ia.2) <$> df)) df.
End readTSV.

(** ** Further notions for the properties *)

(** The URL [findID] requests on a miss, by mode. *)
Definition mode_URL (user placeName : string) (codes : codes_arg) : string :=
  if truthy codes then biased_URL user placeName (default "" codes)
  else country_URL user placeName.

(** The input columns of a dataframe, under their labels. *)
Definition annots (df : frame row) : frame annotation :=
  (λ ir, (ir.1, annot ir.2)) <$> df.

(** The rows of an article as [processArticle] gives them on empty tables;
    no rows if it raises. *)
Definition article_alone (O : set_order) (user : string) (api : service)
    (df : frame annotation) (key : string) : frame row :=
  match (processArticle O user api (group df key) empty_world).1 with
  | Ok g => g
  | Raise _ => []
  end.

(** The answers of the service depend on the URL only. *)
Definition stationary (api : service) : Prop :=
  ∀ h1 h2 URL, api h1 URL = api h2 URL.

(** Every stored result is what the same call returns at the start of a
    run, on empty tables. *)
Definition sound (user : string) (api : service) (w : world) : Prop :=
  (∀ p v, baseline_cache w !! p = Some v →
          (findID_baseline user api p empty_world).1 = Ok v) ∧
  (∀ p c v, findID_cache w !! (p, c) = Some v →
            (findID user api p c empty_world).1 = Ok v).

(** The range of the [predID] column. *)
Definition int64 (z : Z) : Prop := - 2 ^ 63 ≤ z < 2 ^ 63.

(** The id in a result of [findID]. *)
Definition result_id (v : findID_result) : Z :=
  match v with
  | CountryRes id _ => id
  | IdRes id => id
  end.

(** A service that always answers, with candidates that carry a feature
    code and an id in the 64-bit range. *)
Definition answers_in_range (geonames_api : service) : Prop :=
  ∀ hist URL, ∃ cands n,
    geonames_api hist URL
    = Ok {| geonames := Some (to_json <$> cands); other_keys := n |} ∧
    ∀ c, c ∈ cands → int64 (cand_id c).

(** Both tables hold ids in the 64-bit range only. *)
Definition tables_int64 (w : world) : Prop :=
  (∀ p v, baseline_cache w !! p = Some v → int64 v) ∧
  (∀ k v, findID_cache w !! k = Some v → int64 (result_id v)).

(** Every search comes back with an empty candidate list. *)
Definition finds_nothing (api : service) : Prop :=
  ∀ h URL, ∃ n, api h URL = Ok {| geonames := Some []; other_keys := n |}.

(** The result "not found" in the mode [codes] selects. *)
Definition not_found (codes : codes_arg) : findID_result :=
  if truthy codes then IdRes 0 else CountryRes 0 [].

(** Both tables hold "not found" only. *)
Definition zero_tables (w : world) : Prop :=
  (∀ p v, baseline_cache w !! p = Some v → v = 0) ∧
  (∀ p c v, findID_cache w !! (p, c) = Some v → v = not_found c).

(** ** Sample data for the examples *)

(** An iteration order: the distinct codes as [remove_dups] lists them. *)
Definition listed_order : set_order :=
  {| set_iter := remove_dups;
     set_iter_NoDup := NoDup_remove_dups;
     set_iter_elem := fun l x => elem_of_remove_dups l x |}.

(** A scored row with the given expected and predicted id. *)
Definition mk_row (expID predID : Z) : row :=
  {| annot := {| articleID := "a1"; toponym := "t"; geoID := expID;
                 isTitle := false |};
     predID := predID |}.

(** Six rows resolved correctly, two left at 0, two resolved wrongly. *)
Definition ten_rows : list row :=
  [mk_row 11 11; mk_row 12 12; mk_row 13 13; mk_row 14 14; mk_row 15 15;
   mk_row 16 16; mk_row 17 0; mk_row 18 0; mk_row 19 91; mk_row 20 92].

Definition sample_user : string := "demo".

Definition Nederland : Candidate :=
  {| cand_id := 2750405; featureCode := "PCLI"; cand_country := Some "NL" |}.
Definition Europa : Candidate :=
  {| cand_id := 6255148; featureCode := "CONT"; cand_country := None |}.
Definition Parijs : Candidate :=
  {| cand_id := 2988507; featureCode := "PPLC"; cand_country := Some "FR" |}.
Definition Utrecht : Candidate :=
  {| cand_id := 2745912; featureCode := "PPLA"; cand_country := Some "NL" |}.

(** A candidate without its ["geonameId"] key. *)
Definition nameless : candidate :=
  {| geonameId := None; fcode := Some "PPL"; countryCode := Some "NL" |}.

Definition found (cs : list candidate) : res response :=
  Ok {| geonames := Some cs; other_keys := 1 |}.

(** A service that knows a few places and answers every other search with
    an empty ["geonames"] array. *)
Definition sample_api : service := λ _ URL,
  if String.eqb URL (country_URL sample_user "Nederland")
  then found [to_json Nederland; to_json Utrecht]
  else if String.eqb URL (country_URL sample_user "Europa")
  then found [to_json Europa; to_json Nederland]
  else if String.eqb URL (biased_URL sample_user "Parijs" "&countryBias=NL")
  then found [to_json Parijs]
  else if String.eqb URL (baseline_URL sample_user "Utrecht")
  then found [to_json Utrecht]
  else if String.eqb URL (biased_URL sample_user "Nergens" "&countryBias=NL")
  then found [nameless]
  else found [].

(** One article: a country, a town in it, and a place no search finds. *)
Definition sample_article : frame annotation :=
  [(0%nat, {| articleID := "a1"; toponym := "Nederland"; geoID := 2750405;
              isTitle := true |});
   (1%nat, {| articleID := "a1"; toponym := "Utrecht"; geoID := 2745912;
              isTitle := false |});
   (2%nat, {| articleID := "a1"; toponym := "Atlantis"; geoID := 0;
              isTitle := false |})].

(** The sample article after both passes: the country from the first pass,
    the town from the fall-back of the second, and the place not found. *)
Definition sample_out : frame row :=
  [(0%nat, {| annot := {| articleID := "a1"; toponym := "Nederland";
                          geoID := 2750405; isTitle := true |};
              predID := 2750405 |});
   (1%nat, {| annot := {| articleID := "a1"; toponym := "Utrecht";
                          geoID := 2745912; isTitle := false |};
              predID := 2745912 |});
   (2%nat, {| annot := {| articleID := "a1"; toponym := "Atlantis";
                          geoID := 0; isTitle := false |};
              predID := 0 |})].

(** A service out of quota: every reply is an error object. *)
Definition quota_api : service := λ _ _,
  Ok {| geonames := None; other_keys := 1 |}.

(** A service whose every reply is the empty object. *)
Definition silent_api : service := λ _ _,
  Ok {| geonames := None; other_keys := 0 |}.

(** An article that names one town twice. *)
Definition repeated_article : frame annotation :=
  [(4%nat, {| articleID := "a2"; toponym := "Utrecht"; geoID := 2745912;
              isTitle := true |});
   (5%nat, {| articleID := "a2"; toponym := "Nederland"; geoID := 2750405;
              isTitle := false |});
   (6%nat, {| articleID := "a2"; toponym := "Utrecht"; geoID := 2745912;
              isTitle := false |})].

Definition repeated_out : frame row :=
  [(4%nat, {| annot := {| articleID := "a2"; toponym := "Utrecht";
                          geoID := 2745912; isTitle := true |};
              predID := 2745912 |});
   (5%nat, {| annot := {| articleID := "a2"; toponym := "Nederland";
                          geoID := 2750405; isTitle := false |};
              predID := 2750405 |});
   (6%nat, {| annot := {| articleID := "a2"; toponym := "Utrecht";
                          geoID := 2745912; isTitle := false |};
              predID := 2745912 |})].

(** A service that answers every search with well-formed candidates. *)
Definition atlas_api : service := λ _ URL,
  if String.eqb URL (country_URL sample_user "Nederland")
  then found [to_json Nederland; to_json Utrecht]
  else if String.eqb URL (baseline_URL sample_user "Utrecht")
  then found [to_json Utrecht]
  else found [].

(** A file of two articles. *)
Definition sample_file : frame annotation :=
  [(0%nat, {| articleID := "a1"; toponym := "Nederland"; geoID := 2750405;
              isTitle := true |});
   (1%nat, {| articleID := "a2"; toponym := "Utrecht"; geoID := 2745912;
              isTitle := true |});
   (2%nat, {| articleID := "a1"; toponym := "Utrecht"; geoID := 2745912;
              isTitle := false |});
   (3%nat, {| articleID := "a2"; toponym := "Atlantis"; geoID := 0;
              isTitle := false |})].

(** A service that finds nothing. *)
Definition empty_api : service := λ _ _, found [].

(** * Properties *)

(** ** The bias builder *)

(** A second order: the enumeration of [listed_order] reversed. *)
Lemma reverse_remove_dups_NoDup (l : list string) :
  NoDup (reverse (remove_dups l)).
Proof. rewrite reverse_Permutation. apply NoDup_remove_dups. Qed.

Lemma reverse_remove_dups_elem (l : list string) (x : string) :
  x ∈ reverse (remove_dups l) ↔ x ∈ l.
Proof. by rewrite elem_of_reverse, elem_of_remove_dups. Qed.

Definition reversed_order : set_order :=
  {| set_iter := fun l => reverse (remove_dups l);
     set_iter_NoDup := reverse_remove_dups_NoDup;
     set_iter_elem := reverse_remove_dups_elem |}.

Section makeString_facts.
Context (O : set_order).

Lemma set_iter_nil_inv l : set_iter O l = [] → l = [].
Proof.
  intros E. destruct l as [|x l]; [done|].
  assert (x ∈ set_iter O (x :: l)) as H by (apply set_iter_elem; left).
  rewrite E in H. inversion H.
Qed.

Lemma set_iter_of_nil : set_iter O [] = [].
Proof.
  destruct (set_iter O []) as [|x r] eqn:E; [done|].
  assert (x ∈ @nil string) as H by (apply (set_iter_elem O); rewrite E; left).
  inversion H.
Qed.

Lemma set_iter_only c l : only_code c l → set_iter O l = [c].
Proof.
  intros [Hne Hall].
  pose proof (set_iter_NoDup O l) as ND.
  destruct (set_iter O l) as [|x r] eqn:E.
  - by apply set_iter_nil_inv in E.
  - assert (x = c) as ->.
    { apply Hall, (set_iter_elem O). rewrite E. left. }
    destruct r as [|y r]; [done|].
    assert (y = c) as ->.
    { apply Hall, (set_iter_elem O). rewrite E. right; left. }
    apply NoDup_cons in ND as [Hn _]. exfalso. apply Hn. left.
Qed.

Lemma set_iter_two l :
  two_distinct l → ∃ c d r, set_iter O l = c :: d :: r.
Proof.
  intros (a & b & Ha & Hb & Hab).
  apply (set_iter_elem O) in Ha, Hb.
  destruct (set_iter O l) as [|c [|d r]]; [inversion Ha| |by eauto].
  apply list_elem_of_singleton in Ha, Hb. congruence.
Qed.

(** [codesList[0]] is only evaluated on a non-empty list. *)
Lemma makeString_head_defined l x :
  set_iter O l = [x] → ∃ c r, l = c :: r.
Proof.
  intros E. destruct l as [|c r]; [|by eauto].
  by rewrite set_iter_of_nil in E.
Qed.
End makeString_facts.

(** C5. [makeString] on a list of country codes: no code gives the
    default-country directive for "NL"; exactly one distinct code gives the
    single-country bias directive for that code; two or more distinct codes
    give the restrict directive for one single code, a member of the list. *)
Theorem makeString_cases (O : set_order) (codesList : list string) :
  (codesList = [] → makeString O codesList = "&countryBias=NL") ∧
  (∀ c, only_code c codesList →
        makeString O codesList = "&countryBias=" +:+ c) ∧
  (two_distinct codesList →
     ∃ c, c ∈ codesList ∧ makeString O codesList = "&country=" +:+ c).
Proof.
  unfold makeString. split; [|split].
  - intros ->. by rewrite set_iter_of_nil.
  - intros c Hc. rewrite (set_iter_only O c codesList Hc).
    destruct Hc as [Hne Hall]. destruct codesList as [|x r]; [done|].
    simpl. f_equal. apply Hall. left.
  - intros H2. destruct (set_iter_two O codesList H2) as (c & d & r & E).
    rewrite E. exists c. split; [|done].
    apply (set_iter_elem O). rewrite E. left.
Qed.

Lemma makeString_cases_witness :
  makeString listed_order [] = "&countryBias=NL" ∧
  makeString listed_order ["US"; "US"] = "&countryBias=US" ∧
  ∃ c, c ∈ ["US"; "FR"] ∧ makeString listed_order ["US"; "FR"] = "&country=" +:+ c.
Proof.
  split; [|split].
  - apply (proj1 (makeString_cases listed_order [])). reflexivity.
  - apply (proj1 (proj2 (makeString_cases listed_order ["US"; "US"]))).
    split; [discriminate|].
    intros x Hx. repeat (apply elem_of_cons in Hx as [Hx|Hx]; [exact Hx|]).
    inversion Hx.
  - apply (proj2 (proj2 (makeString_cases listed_order ["US"; "FR"]))).
    exists "US", "FR". repeat split; [left | right; left | discriminate].
Defined.

(** C6, as the code has it. With two or more distinct codes the directive
    names the first code in the iteration order of the set; so two
    invocations on the same codes agree as soon as their sets are iterated
    from the same first code, whatever list and order they came from. *)
Theorem makeString_first_in_order (O1 O2 : set_order) (l1 l2 : list string) :
  two_distinct l1 →
  (∀ x, x ∈ l1 ↔ x ∈ l2) →
  head (set_iter O1 l1) = head (set_iter O2 l2) →
  makeString O1 l1 = makeString O2 l2 ∧
  ∃ c, head (set_iter O1 l1) = Some c ∧ c ∈ l1 ∧
       makeString O1 l1 = "&country=" +:+ c.
Proof.
  intros H1 Hset Hhd.
  assert (two_distinct l2) as H2.
  { destruct H1 as (a & b & Ha & Hb & Hab). exists a, b.
    by rewrite <- !Hset. }
  destruct (set_iter_two O1 l1 H1) as (c1 & d1 & r1 & E1).
  destruct (set_iter_two O2 l2 H2) as (c2 & d2 & r2 & E2).
  unfold makeString. rewrite E1, E2 in *. simpl in Hhd.
  injection Hhd as ->. split; [done|].
  exists c2. repeat split.
  apply (set_iter_elem O1). rewrite E1. left.
Qed.

Lemma makeString_first_in_order_witness :
  makeString listed_order ["US"; "FR"; "US"]
    = makeString reversed_order ["US"; "FR"] ∧
  ∃ c, head (set_iter listed_order ["US"; "FR"; "US"]) = Some c ∧
       c ∈ ["US"; "FR"; "US"] ∧
       makeString listed_order ["US"; "FR"; "US"] = "&country=" +:+ c.
Proof.
  apply (makeString_first_in_order listed_order reversed_order
           ["US"; "FR"; "US"] ["US"; "FR"]).
  - exists "US", "FR". repeat split; [left | right; left | discriminate].
  - intros x. rewrite !elem_of_cons. rewrite !elem_of_nil. tauto.
  - vm_compute. reflexivity.
Defined.

(** C6, as stated, fails: the set alone does not fix the directive. Under one
    iteration order, two lists of the same two codes give different
    directives; and one list gives different directives under two orders. *)
Lemma makeString_not_determined_by_set :
  ¬ (∀ (O1 O2 : set_order) (l1 l2 : list string),
       two_distinct l1 → (∀ x, x ∈ l1 ↔ x ∈ l2) →
       makeString O1 l1 = makeString O2 l2).
Proof.
  intros H.
  specialize (H listed_order listed_order ["US"; "FR"] ["FR"; "US"]).
  assert (makeString listed_order ["US"; "FR"]
          = makeString listed_order ["FR"; "US"]) as E.
  { apply H.
    - exists "US", "FR". repeat split; [left | right; left | discriminate].
    - intros x. rewrite !elem_of_cons. rewrite !elem_of_nil. tauto. }
  vm_compute in E. discriminate E.
Qed.

(** ** The scoring routine *)

Lemma count_rows_cons P r df :
  count_rows P (r :: df) = (if P r then 1 else 0) + count_rows P df.
Proof.
  unfold count_rows. rewrite filter_cons.
  destruct (decide (P r = true)) as [E|E].
  - rewrite E. simpl length. lia.
  - apply not_true_is_false in E. by rewrite E.
Qed.

Lemma count_rows_nonneg P df : 0 ≤ count_rows P df.
Proof. unfold count_rows. lia. Qed.

Lemma fold_left_tally df : ∀ c n,
  fold_left tally_step df (c, n)
  = (c + count_rows is_correct df, n + count_rows is_missed df).
Proof.
  induction df as [|r df IH]; intros c n.
  - unfold count_rows. simpl. f_equal; lia.
  - rewrite !count_rows_cons. cbn [fold_left].
    destruct (tally_step (c, n) r) as [c' n'] eqn:E. rewrite IH.
    unfold tally_step, is_missed, is_correct, is_zero in *.
    destruct (geoID r =? predID r); simpl.
    + injection E as <- <-. f_equal; lia.
    + destruct (predID r =? 0); injection E as <- <-; f_equal; lia.
Qed.

Lemma tally_counts df :
  tally df = (count_rows is_correct df, count_rows is_missed df).
Proof. unfold tally. by rewrite fold_left_tally. Qed.

(** A correct row is not a missed one, so the two counts fit in the total. *)
Lemma correct_missed_le_total df :
  count_rows is_correct df + count_rows is_missed df ≤ Z.of_nat (length df).
Proof.
  induction df as [|r df IH]; [done|].
  rewrite !count_rows_cons. unfold is_missed at 1.
  simpl length. destruct (is_correct r), (is_zero r); simpl; lia.
Qed.

Lemma py_div_nonzero (a : Q) (b : Z) :
  b ≠ 0 → py_div a (inject_Z b) = Ok (a / inject_Z b)%Q.
Proof.
  intros Hb. unfold py_div.
  destruct (Qeq_bool (inject_Z b) 0) eqn:E; [|done].
  apply Qeq_bool_iff in E. unfold Qeq in E. simpl in E. lia.
Qed.

Lemma py_div_zero (a b : Q) : (b == 0)%Q → py_div a b = Raise ZeroDivisionError.
Proof.
  intros Hb. unfold py_div. apply Qeq_bool_iff in Hb. by rewrite Hb.
Qed.

Lemma py_div_pos (a b : Q) : (0 < b)%Q → py_div a b = Ok (a / b)%Q.
Proof.
  intros Hb. unfold py_div.
  destruct (Qeq_bool b 0) eqn:E; [|done].
  apply Qeq_bool_iff in E. rewrite E in Hb. by apply Qlt_irrefl in Hb.
Qed.

Lemma ratio_pos (a b : Z) : 0 < a → 0 < b → (0 < inject_Z a / inject_Z b)%Q.
Proof.
  intros Ha Hb. apply Qlt_shift_div_l.
  - unfold Qlt. simpl. lia.
  - unfold Qlt. simpl. lia.
Qed.

(** With no correct row there is nothing to report: the first or the last
    division has a zero divisor. *)
Lemma agreement_zero_correct_raises df :
  count_rows is_correct df = 0 → agreement df = Raise ZeroDivisionError.
Proof.
  intros Hc. unfold agreement. rewrite tally_counts, Hc. unfold score.
  generalize (Z.of_nat (length df)) (count_rows is_missed df). intros t n.
  destruct (decide (t - n = 0)) as [Hg|Hg]; [rewrite Hg; reflexivity|].
  rewrite (py_div_nonzero _ (t - n)) by done. cbn [mbind res_bind].
  destruct (decide (t = 0)) as [->|Ht]; [reflexivity|].
  rewrite (py_div_nonzero _ t) by done. cbn [mbind res_bind].
  rewrite py_div_zero; [reflexivity|].
  unfold Qeq, Qdiv, Qmult, Qplus, Qinv. simpl. lia.
Qed.

Lemma agreement_of_correct (df : list row) :
  0 < count_rows is_correct df →
  let total := Z.of_nat (length df) in
  let correct := count_rows is_correct df in
  let guessed := total - count_rows is_missed df in
  let precision := (inject_Z correct / inject_Z guessed)%Q in
  let recall := (inject_Z correct / inject_Z total)%Q in
  agreement df
  = Ok {| m_total := total; m_precision := precision; m_recall := recall;
          m_f1 := (2 * precision * recall / (precision + recall))%Q |}.
Proof.
  intros Hc total correct guessed precision recall.
  pose proof (correct_missed_le_total df) as Hle.
  pose proof (count_rows_nonneg is_missed df) as Hm.
  assert (0 < guessed) as Hg by (unfold guessed, total; lia).
  assert (0 < total) as Ht by (unfold total; lia).
  unfold agreement. rewrite tally_counts. unfold score.
  rewrite (py_div_nonzero _ (Z.of_nat (length df) - count_rows is_missed df))
    by (fold total guessed; lia).
  cbn [mbind res_bind].
  rewrite (py_div_nonzero _ (Z.of_nat (length df))) by (fold total; lia).
  cbn [mbind res_bind].
  fold total correct guessed precision recall.
  rewrite py_div_pos; [reflexivity|].
  pose proof (ratio_pos correct guessed Hc Hg) as Hp.
  pose proof (ratio_pos correct total Hc Ht) as Hr.
  fold precision in Hp. fold recall in Hr.
  apply (Qplus_lt_le_compat 0 precision 0 recall); [done|].
  by apply Qlt_le_weak.
Qed.

Lemma count_rows_app P (df1 df2 : list row) :
  count_rows P (df1 ++ df2) = count_rows P df1 + count_rows P df2.
Proof.
  unfold count_rows. rewrite filter_app, length_app. lia.
Qed.

(** C10. In [agreement] the equality test comes first: [totalCorrect] counts
    the rows whose two ids are equal and [notGuessed] the rows with
    predicted id 0 that are not among those. So a row whose expected and
    predicted id are both 0 is counted as correct and as guessed, not as
    unresolved: added to a dataframe, it adds one to the total, to
    [totalCorrect] and to [totalGuessed] = total - [notGuessed], leaves
    [notGuessed] as it is, and the metrics [agreement] reports are those of
    these counts. *)
Theorem tally_equality_first (df : list row) :
  let total := Z.of_nat (length df) in
  let correct := count_rows is_correct df in
  let unresolved := count_rows is_missed df in
  tally df = (correct, unresolved) ∧
  ∀ r : row, geoID r = 0 → predID r = 0 →
    tally (df ++ [r]) = (correct + 1, unresolved) ∧
    let guessed := (total - unresolved) + 1 in
    let precision := (inject_Z (correct + 1) / inject_Z guessed)%Q in
    let recall := (inject_Z (correct + 1) / inject_Z (total + 1))%Q in
    agreement (df ++ [r])
    = Ok {| m_total := total + 1; m_precision := precision;
            m_recall := recall;
            m_f1 := (2 * precision * recall / (precision + recall))%Q |}.
Proof.
  intros total correct unresolved. split; [apply tally_counts|].
  intros r He Hp.
  assert (is_correct r = true) as Hc.
  { unfold is_correct. rewrite He, Hp. reflexivity. }
  assert (count_rows is_correct (df ++ [r]) = correct + 1) as Hcor.
  { rewrite count_rows_app, count_rows_cons, Hc. unfold count_rows at 2.
    simpl. fold correct. lia. }
  assert (count_rows is_missed (df ++ [r]) = unresolved) as Hmis.
  { rewrite count_rows_app, count_rows_cons. unfold is_missed at 2.
    rewrite Hc. unfold count_rows at 2. simpl. fold unresolved. lia. }
  assert (Z.of_nat (length (df ++ [r])) = total + 1) as Hlen.
  { rewrite length_app. simpl. unfold total. lia. }
  split.
  - by rewrite tally_counts, Hcor, Hmis.
  - pose proof (count_rows_nonneg is_correct df) as Hn. fold correct in Hn.
    pose proof (agreement_of_correct (df ++ [r])) as E. cbv zeta in E.
    rewrite Hcor, Hmis, Hlen in E.
    replace (total + 1 - unresolved) with (total - unresolved + 1) in E by lia.
    apply E. lia.
Qed.

Lemma tally_equality_first_witness :
  tally ([mk_row 5 5; mk_row 7 0] ++ [mk_row 0 0]) = (1 + 1, 1) ∧
  agreement ([mk_row 5 5; mk_row 7 0] ++ [mk_row 0 0])
  = Ok {| m_total := 2 + 1;
          m_precision := (inject_Z (1 + 1) / inject_Z (2 - 1 + 1))%Q;
          m_recall := (inject_Z (1 + 1) / inject_Z (2 + 1))%Q;
          m_f1 := (2 * (inject_Z (1 + 1) / inject_Z (2 - 1 + 1))
                     * (inject_Z (1 + 1) / inject_Z (2 + 1))
                   / (inject_Z (1 + 1) / inject_Z (2 - 1 + 1)
                      + inject_Z (1 + 1) / inject_Z (2 + 1)))%Q |}.
Proof.
  apply (proj2 (tally_equality_first [mk_row 5 5; mk_row 7 0]) (mk_row 0 0));
    reflexivity.
Defined.

(** C8, as the code has it. [agreement] reports, for a dataframe with at
    least one correct row: total = number of rows, correct = rows whose two
    ids are equal, unresolved = rows with predicted id 0 that are not
    correct, guessed = total - unresolved, precision = correct / guessed,
    recall = correct / total, f1 = 2 * precision * recall / (precision +
    recall). For total 10, correct 6 and unresolved 2 this gives guessed 8,
    precision 3/4, recall 3/5 and f1 2/3 (0.667 to three places). *)
Theorem agreement_metrics :
  (∀ df : list row,
     let total := Z.of_nat (length df) in
     let correct := count_rows is_correct df in
     let unresolved := count_rows is_missed df in
     let guessed := total - unresolved in
     let precision := (inject_Z correct / inject_Z guessed)%Q in
     let recall := (inject_Z correct / inject_Z total)%Q in
     0 < correct →
     agreement df
     = Ok {| m_total := total; m_precision := precision; m_recall := recall;
             m_f1 := (2 * precision * recall / (precision + recall))%Q |}) ∧
  (∃ m, score 10 6 2 = Ok m ∧
        (m_precision m == inject_Z 6 / inject_Z (10 - 2))%Q ∧
        (m_precision m == 3 # 4)%Q ∧ (m_recall m == 3 # 5)%Q ∧
        (m_f1 m == 2 # 3)%Q ∧
        (6665 # 10000 < m_f1 m)%Q ∧ (m_f1 m < 6675 # 10000)%Q).
Proof.
  split.
  - intros df total correct unresolved guessed precision recall Hc.
    pose proof (correct_missed_le_total df) as Hle.
    pose proof (count_rows_nonneg is_missed df) as Hm.
    assert (0 < guessed) as Hg by (unfold guessed, total, unresolved; lia).
    assert (0 < total) as Ht by (unfold total; lia).
    unfold agreement. rewrite tally_counts. unfold score.
    rewrite (py_div_nonzero _ (Z.of_nat (length df) - count_rows is_missed df))
      by (fold total unresolved guessed; lia).
    cbn [mbind res_bind].
    rewrite (py_div_nonzero _ (Z.of_nat (length df))) by (fold total; lia).
    cbn [mbind res_bind].
    fold total correct unresolved guessed precision recall.
    rewrite py_div_pos; [reflexivity|].
    pose proof (ratio_pos correct guessed Hc Hg) as Hp.
    pose proof (ratio_pos correct total Hc Ht) as Hr.
    fold precision in Hp. fold recall in Hr.
    apply (Qplus_lt_le_compat 0 precision 0 recall); [done|].
    by apply Qlt_le_weak.
  - eexists. split; [reflexivity|]. repeat split.
Qed.

Lemma agreement_metrics_witness :
  agreement ten_rows
  = Ok {| m_total := 10;
          m_precision := (inject_Z 6 / inject_Z 8)%Q;
          m_recall := (inject_Z 6 / inject_Z 10)%Q;
          m_f1 := (2 * (inject_Z 6 / inject_Z 8) * (inject_Z 6 / inject_Z 10)
                   / (inject_Z 6 / inject_Z 8 + inject_Z 6 / inject_Z 10))%Q |}.
Proof.
  apply (proj1 agreement_metrics ten_rows). vm_compute. reflexivity.
Defined.

(** C8, as stated, fails on a row whose expected and predicted id are both
    0: counting every predicted 0 as unresolved gives guessed = 0 and no
    precision, where [agreement] reports precision 1. *)
Lemma agreement_not_zero_count :
  let df := [mk_row 0 0] in
  (tally df).2 ≠ count_rows is_zero df ∧
  agreement df
  ≠ score (Z.of_nat (length df)) (count_rows is_correct df)
          (count_rows is_zero df).
Proof.
  split; vm_compute; discriminate.
Qed.

(** C1. Where no id was guessed, [agreement] raises at its first division
    and reports nothing; where ids were guessed and none is correct, it
    raises at the division for f1. *)
Theorem agreement_degenerate_raises :
  agreement [mk_row 5 0] = Raise ZeroDivisionError ∧
  agreement [mk_row 5 0; mk_row 6 0; mk_row 7 0] = Raise ZeroDivisionError ∧
  agreement [] = Raise ZeroDivisionError ∧
  agreement [mk_row 5 7] = Raise ZeroDivisionError.
Proof. repeat split. Qed.

(** ** The memoised resolver *)

Section resolver_facts.
Context (user : string) (api : service).

Lemma extends_refl w : extends w w.
Proof. split; [by exists []|done|done]. Qed.

Lemma extends_trans w1 w2 w3 : extends w1 w2 → extends w2 w3 → extends w1 w3.
Proof.
  intros [[n1 E1] F1 B1] [[n2 E2] F2 B2]. split.
  - exists (n2 ++ n1). by rewrite E2, E1, app_assoc.
  - eauto.
  - eauto.
Qed.

Lemma findID_baseline_hit placeName v w :
  baseline_cache w !! placeName = Some v →
  findID_baseline user api placeName w = (Ok v, w).
Proof.
  intros H. unfold findID_baseline, lru_baseline. by rewrite H.
Qed.

Lemma findID_hit placeName codes v w :
  findID_cache w !! (placeName, codes) = Some v →
  findID user api placeName codes w = (Ok v, log_call (placeName, codes) w).
Proof.
  intros H. unfold findID, record_call, lru_findID, mbind, M_bind.
  simpl. by rewrite H.
Qed.

(** The body of [findID_baseline]: one request, nothing else. *)
Lemma findID_baseline_body_effect placeName w :
  (findID_baseline_body user api placeName w).2
  = log_request (baseline_URL user placeName) w.
Proof.
  unfold findID_baseline_body, requests_get, lift, mbind, M_bind, mret, M_ret.
  repeat (case_match; simplify_eq/=; try done).
Qed.

Lemma findID_baseline_effect placeName w :
  ∃ r w', findID_baseline user api placeName w = (r, w') ∧
    calls w' = calls w ∧ findID_cache w' = findID_cache w ∧
    (length (requests w') ≤ length (requests w) + 1)%nat ∧
    extends w w' ∧
    ∀ v, r = Ok v → baseline_cache w' !! placeName = Some v.
Proof.
  unfold findID_baseline, lru_baseline.
  destruct (baseline_cache w !! placeName) as [v|] eqn:Hc.
  - eexists _, _. split; [done|]. split_and!; try done.
    + lia.
    + apply extends_refl.
    + by intros ? [= <-].
  - pose proof (findID_baseline_body_effect placeName w) as E.
    destruct (findID_baseline_body user api placeName w) as [[v|e] w1];
      simpl in E; subst w1; eexists _, _; (split; [done|]); simpl.
    + split_and!; try done; [lia| |].
      * split; simpl; [by exists [baseline_URL user placeName]|done|].
        intros k v' Hk. rewrite lookup_insert_ne; [done|]. congruence.
      * intros ? [= <-]. apply lookup_insert_eq.
    + split_and!; try done; [lia|].
      split; simpl; [by exists [baseline_URL user placeName]|done|done].
Qed.

Lemma extends_log_request URL w : extends w (log_request URL w).
Proof. split; simpl; [by exists [URL]|done|done]. Qed.

Lemma extends_log_call k w : extends w (log_call k w).
Proof. split; simpl; [by exists []|done|done]. Qed.

(** The body of [findID]: one request, and in the fall-back case whatever
    [findID_baseline] does after it. *)
Lemma findID_body_effect k w :
  ∃ r w', findID_body user api k w = (r, w') ∧
    calls w' = calls w ∧ findID_cache w' = findID_cache w ∧
    (length (requests w') ≤ length (requests w) + 2)%nat ∧
    extends w w'.
Proof.
  destruct k as [placeName codes].
  unfold findID_body, requests_get, lift, mbind, M_bind, mret, M_ret.
  destruct (truthy codes).
  - set (w1 := log_request _ w).
    destruct (api (requests w) _) as [data|e]; simpl.
    2:{ eexists _, _. split; [done|]. split_and!; try done; [simpl; lia|].
        apply extends_log_request. }
    destruct (len_data data =? 0)%nat.
    { eexists _, _. split; [done|]. split_and!; try done; [simpl; lia|].
      apply extends_log_request. }
    destruct (get_geonames data) as [[|firstOption rest]|e]; simpl.
    + destruct (findID_baseline_effect placeName w1)
        as (r & w2 & E & Hcalls & Hcache & Hlen & Hext & _).
      rewrite E.
      assert (extends w w2) as Hw.
      { eapply extends_trans; [apply extends_log_request|exact Hext]. }
      destruct r as [v|e]; eexists _, _; (split; [done|]);
        split_and!; try done; simpl in *; lia.
    + destruct (get_geonameId firstOption); eexists _, _; (split; [done|]);
        split_and!; try done; try (simpl; lia); apply extends_log_request.
    + eexists _, _. split; [done|]. split_and!; try done; [simpl; lia|].
      apply extends_log_request.
  - destruct (api (requests w) _) as [data|e]; simpl.
    2:{ eexists _, _. split; [done|]. split_and!; try done; [simpl; lia|].
        apply extends_log_request. }
    repeat (case_match; simplify_eq/=);
      eexists _, _; (split; [done|]); split_and!; try done;
      try (simpl; lia); apply extends_log_request.
Qed.

Lemma findID_effect placeName codes w :
  ∃ r w', findID user api placeName codes w = (r, w') ∧
    calls w' = (placeName, codes) :: calls w ∧
    (length (requests w') ≤ length (requests w) + 2)%nat ∧
    extends w w' ∧
    ∀ v, r = Ok v → findID_cache w' !! (placeName, codes) = Some v.
Proof.
  unfold findID, record_call, mbind, M_bind. cbv beta iota.
  unfold lru_findID.
  change (findID_cache (log_call (placeName, codes) w)) with (findID_cache w).
  destruct (findID_cache w !! (placeName, codes)) as [v|] eqn:Hc.
  - eexists _, _. split; [done|]. split_and!; try done.
    + simpl. lia.
    + apply extends_log_call.
    + by intros ? [= <-].
  - destruct (findID_body_effect (placeName, codes)
                (log_call (placeName, codes) w))
      as (r & w1 & E & Hcalls & Hcache & Hlen & Hext).
    rewrite E.
    assert (extends w w1) as Hw.
    { eapply extends_trans; [apply extends_log_call|exact Hext]. }
    destruct r as [v|e]; eexists _, _; (split; [done|]); simpl.
    + split_and!; try done.
      * destruct Hw as [Hr Hf Hb]. split; simpl; [done| |done].
        intros k v' Hk. rewrite lookup_insert_ne; [by apply Hf|].
        congruence.
      * intros ? [= <-]. apply lookup_insert_eq.
    + split_and!; done.
Qed.

Lemma findID_miss placeName codes w :
  findID_cache w !! (placeName, codes) = None →
  findID user api placeName codes w
  = match findID_body user api (placeName, codes)
            (log_call (placeName, codes) w) with
    | (Ok v, w') => (Ok v, store_findID (placeName, codes) v w')
    | (Raise e, w') => (Raise e, w')
    end.
Proof.
  intros Hc.
  unfold findID, record_call, mbind, M_bind. cbv beta iota.
  unfold lru_findID.
  change (findID_cache (log_call (placeName, codes) w)) with (findID_cache w).
  by rewrite Hc.
Qed.

(** Country mode issues its single request and nothing more. *)
Lemma findID_body_country_requests placeName codes w :
  truthy codes = false →
  requests (findID_body user api (placeName, codes) w).2
  = country_URL user placeName :: requests w.
Proof.
  intros Ht.
  unfold findID_body, requests_get, lift, mbind, M_bind, mret, M_ret.
  rewrite Ht. repeat (case_match; simplify_eq/=; try done).
Qed.

Lemma steps_extends w w' : steps user api w w' → extends w w'.
Proof.
  induction 1 as [w|w placeName codes w' _ IH|w placeName w' _ IH].
  - apply extends_refl.
  - destruct (findID_effect placeName codes w) as (r & w1 & E & _ & _ & Hext & _).
    rewrite E in IH. simpl in IH.
    by eapply extends_trans.
  - destruct (findID_baseline_effect placeName w)
      as (r & w1 & E & _ & _ & _ & Hext & _).
    rewrite E in IH. simpl in IH.
    by eapply extends_trans.
Qed.

(** The loop of country mode, on well-formed candidates, is a search for
    the first "PCL" feature code. *)
Lemma scan_options_find (cands : list Candidate) :
  scan_options (to_json <$> cands)
  = Ok match List.find (λ c, String.prefix "PCL" (featureCode c)) cands with
       | Some c => (cand_id c, option_list (cand_country c))
       | None => (0, [])
       end.
Proof.
  induction cands as [|c cands IH]; [done|].
  simpl. destruct (String.prefix "PCL" (featureCode c)); simpl.
  - by destruct (cand_country c).
  - exact IH.
Qed.
End resolver_facts.

(** C3. Country mode. On a key not yet stored, [findID] asks for two rows
    ([maxRows=2]); on the candidates the service answers with, it returns
    what the specification's resolveCountry returns: the id of a top
    candidate that is a continent, with no country code; otherwise the id
    of the first candidate whose feature code begins with "PCL", with its
    country code when it has one; otherwise, and for no candidate or an
    empty body, [(0, [])]. *)
Theorem findID_country_refines (user : string) (api : service)
    (placeName : string) (w : world) (data : response) :
  findID_cache w !! (placeName, None) = None →
  api (requests w) (country_URL user placeName) = Ok data →
  let w' := log_request (country_URL user placeName)
              (log_call (placeName, None) w) in
  country_URL user placeName
    = "http://api.geonames.org/searchJSON?q=" +:+ placeName
        +:+ "&searchlang=nl&maxRows=2&username=" +:+ user ∧
  (∀ cands : list Candidate,
     geonames data = Some (to_json <$> cands) →
     let v := CountryRes (resolveCountry_spec cands).1
                         (option_list (resolveCountry_spec cands).2) in
     findID user api placeName None w
     = (Ok v, store_findID (placeName, None) v w')) ∧
  (len_data data = 0%nat →
     findID user api placeName None w
     = (Ok (CountryRes 0 []),
        store_findID (placeName, None) (CountryRes 0 []) w')).
Proof.
  intros Hc Hapi w'. split; [reflexivity|].
  rewrite (findID_miss user api placeName None w Hc).
  unfold findID_body, requests_get, lift, mbind, M_bind, mret, M_ret.
  cbn [truthy]. cbv beta iota.
  change (requests (log_call (placeName, None) w)) with (requests w).
  rewrite Hapi. fold w'. split.
  - intros cands Hg.
    assert ((len_data data =? 0)%nat = false) as ->.
    { apply Nat.eqb_neq. unfold len_data. rewrite Hg. lia. }
    unfold get_geonames. rewrite Hg.
    destruct cands as [|top rest]; [done|].
    pose proof (scan_options_find (top :: rest)) as Hscan.
    rewrite fmap_cons in *.
    unfold get_fcode at 1, get_geonameId at 1.
    cbn [to_json fcode geonameId]. unfold resolveCountry_spec.
    destruct (String.eqb (featureCode top) "CONT"); [done|].
    rewrite Hscan.
    by destruct (List.find _ (top :: rest)).
  - intros Hlen. by rewrite Hlen.
Qed.

Lemma findID_country_refines_witness :
  findID sample_user sample_api "Nederland" None empty_world
  = (Ok (CountryRes 2750405 ["NL"]),
     store_findID ("Nederland", None) (CountryRes 2750405 ["NL"])
       (log_request (country_URL sample_user "Nederland")
          (log_call ("Nederland", None) empty_world))).
Proof.
  exact (proj1 (proj2 (findID_country_refines sample_user sample_api
                         "Nederland" empty_world
                         {| geonames := Some [to_json Nederland; to_json Utrecht];
                            other_keys := 1 |}
                         eq_refl eq_refl))
               [Nederland; Utrecht] eq_refl).
Defined.

(** A continent on top is returned without a country code; a place no search
    finds gives [(0, [])]. *)
Example findID_country_examples :
  (findID sample_user sample_api "Europa" None empty_world).1
    = Ok (CountryRes 6255148 []) ∧
  (findID sample_user sample_api "Atlantis" None empty_world).1
    = Ok (CountryRes 0 []).
Proof. split; vm_compute; reflexivity. Qed.

(** C4. Biased mode. On a key not yet stored: when the search with the bias
    comes back with an empty candidate list, [findID] calls
    [findID_baseline] on the same text and returns (and stores) its value,
    or raises what it raises; when it comes back with candidates, the id of
    the first one is returned. *)
Theorem findID_bias_fallback (user : string) (api : service)
    (placeName codes : string) (w : world) (data : response) :
  codes ≠ "" →
  findID_cache w !! (placeName, Some codes) = None →
  api (requests w) (biased_URL user placeName codes) = Ok data →
  let k := (placeName, Some codes) in
  let w1 := log_request (biased_URL user placeName codes) (log_call k w) in
  biased_URL user placeName codes
    = "http://api.geonames.org/searchJSON?q=" +:+ placeName
        +:+ "&searchlang=nl" +:+ codes +:+ "&maxRows=1&username=" +:+ user ∧
  (geonames data = Some [] →
     findID user api placeName (Some codes) w
     = match findID_baseline user api placeName w1 with
       | (Ok id, w2) => (Ok (IdRes id), store_findID k (IdRes id) w2)
       | (Raise e, w2) => (Raise e, w2)
       end) ∧
  (∀ top rest id,
     geonames data = Some (top :: rest) → geonameId top = Some id →
     findID user api placeName (Some codes) w
     = (Ok (IdRes id), store_findID k (IdRes id) w1)).
Proof.
  intros Hne Hc Hapi k w1. split; [reflexivity|].
  rewrite (findID_miss user api placeName (Some codes) w Hc).
  unfold findID_body, requests_get, lift, mbind, M_bind, mret, M_ret.
  assert (truthy (Some codes) = true) as ->.
  { simpl. apply negb_true_iff, String.eqb_neq, Hne. }
  cbv beta iota.
  change (requests (log_call (placeName, Some codes) w)) with (requests w).
  change (default "" (Some codes)) with codes.
  rewrite Hapi. subst k w1. split.
  - intros Hg.
    assert ((len_data data =? 0)%nat = false) as ->.
    { apply Nat.eqb_neq. unfold len_data. rewrite Hg. lia. }
    unfold get_geonames. rewrite Hg.
    destruct (findID_baseline user api placeName _) as [[id|e] w2];
      reflexivity.
  - intros top rest id Hg Hid.
    assert ((len_data data =? 0)%nat = false) as ->.
    { apply Nat.eqb_neq. unfold len_data. rewrite Hg. lia. }
    unfold get_geonames, get_geonameId. by rewrite Hg, Hid.
Qed.

Lemma findID_bias_fallback_witness :
  findID sample_user sample_api "Utrecht" (Some "&countryBias=FR") empty_world
  = match findID_baseline sample_user sample_api "Utrecht"
            (log_request (biased_URL sample_user "Utrecht" "&countryBias=FR")
               (log_call ("Utrecht", Some "&countryBias=FR") empty_world)) with
    | (Ok id, w2) =>
        (Ok (IdRes id),
         store_findID ("Utrecht", Some "&countryBias=FR") (IdRes id) w2)
    | (Raise e, w2) => (Raise e, w2)
    end.
Proof.
  apply (proj1 (proj2 (findID_bias_fallback sample_user sample_api "Utrecht"
                         "&countryBias=FR" empty_world
                         {| geonames := Some []; other_keys := 1 |}
                         ltac:(discriminate) eq_refl eq_refl))).
  reflexivity.
Defined.

(** The fall-back in the example does find the town; a biased search that
    has a candidate returns its id. *)
Example findID_bias_examples :
  (findID sample_user sample_api "Utrecht" (Some "&countryBias=FR")
     empty_world).1 = Ok (IdRes 2745912) ∧
  (findID sample_user sample_api "Parijs" (Some "&countryBias=NL")
     empty_world).1 = Ok (IdRes 2988507).
Proof. split; vm_compute; reflexivity. Qed.

(** A first candidate without an id makes biased mode raise; nothing is
    stored for the key. *)
Lemma findID_bias_missing_id (user : string) (api : service)
    (placeName codes : string) (w : world) (data : response) top rest :
  codes ≠ "" →
  findID_cache w !! (placeName, Some codes) = None →
  api (requests w) (biased_URL user placeName codes) = Ok data →
  geonames data = Some (top :: rest) → geonameId top = None →
  findID user api placeName (Some codes) w
  = (Raise (KeyError "geonameId"),
     log_request (biased_URL user placeName codes)
       (log_call (placeName, Some codes) w)).
Proof.
  intros Hne Hc Hapi Hg Hid.
  rewrite (findID_miss user api placeName (Some codes) w Hc).
  unfold findID_body, requests_get, lift, mbind, M_bind, mret, M_ret.
  assert (truthy (Some codes) = true) as ->.
  { simpl. apply negb_true_iff, String.eqb_neq, Hne. }
  cbv beta iota.
  change (requests (log_call (placeName, Some codes) w)) with (requests w).
  change (default "" (Some codes)) with codes.
  rewrite Hapi.
  assert ((len_data data =? 0)%nat = false) as ->.
  { apply Nat.eqb_neq. unfold len_data. rewrite Hg. lia. }
  unfold get_geonames, get_geonameId. by rewrite Hg, Hid.
Qed.

(** C9. In biased mode, a response whose first candidate has no
    ["geonameId"] key makes [findID] raise [KeyError]; the [id = 0] set just
    before the lookup is never returned. *)
Theorem findID_missing_id_raises :
  sample_api [] (biased_URL sample_user "Nergens" "&countryBias=NL")
    = found [nameless] ∧
  (findID sample_user sample_api "Nergens" (Some "&countryBias=NL")
     empty_world).1 = Raise (KeyError "geonameId").
Proof. split; vm_compute; reflexivity. Qed.

(** C7, as the code has it. Once a call of [findID] has returned, every
    later call with the same arguments in the run returns the same result
    and sends no request, and likewise for [findID_baseline]. The first
    call sends one request in country mode and for [findID_baseline], and
    at most two in biased mode: its own and the one of the fall-back. *)
Theorem findID_memoised (user : string) (api : service) :
  (∀ placeName codes w r w1,
     findID user api placeName codes w = (Ok r, w1) →
     (length (requests w1) ≤ length (requests w) + 2)%nat ∧
     (truthy codes = false →
      (length (requests w1) ≤ length (requests w) + 1)%nat) ∧
     ∀ w2, steps user api w1 w2 →
           findID user api placeName codes w2
           = (Ok r, log_call (placeName, codes) w2) ∧
           requests (log_call (placeName, codes) w2) = requests w2) ∧
  (∀ placeName w id w1,
     findID_baseline user api placeName w = (Ok id, w1) →
     (length (requests w1) ≤ length (requests w) + 1)%nat ∧
     ∀ w2, steps user api w1 w2 →
           findID_baseline user api placeName w2 = (Ok id, w2)).
Proof.
  split.
  - intros placeName codes w r w1 E.
    destruct (findID_effect user api placeName codes w)
      as (r' & w' & E' & _ & Hlen & _ & Hstored).
    rewrite E in E'. injection E' as <- <-.
    split; [exact Hlen|]. split.
    + intros Ht.
      destruct (findID_cache w !! (placeName, codes)) as [v|] eqn:Hc.
      * rewrite (findID_hit user api placeName codes v w Hc) in E.
        injection E as _ <-. simpl. lia.
      * rewrite (findID_miss user api placeName codes w Hc) in E.
        pose proof (findID_body_country_requests user api placeName codes
                      (log_call (placeName, codes) w) Ht) as Hreq.
        destruct (findID_body user api (placeName, codes) _) as [[v|e] w'];
          [|discriminate].
        injection E as _ <-. simpl in *. rewrite Hreq. simpl. lia.
    + intros w2 Hsteps. split; [|reflexivity].
      apply findID_hit.
      apply (ext_findID _ _ (steps_extends user api w1 w2 Hsteps)).
      by apply Hstored.
  - intros placeName w id w1 E.
    destruct (findID_baseline_effect user api placeName w)
      as (r' & w' & E' & _ & _ & Hlen & _ & Hstored).
    rewrite E in E'. injection E' as <- <-.
    split; [exact Hlen|].
    intros w2 Hsteps. apply findID_baseline_hit.
    apply (ext_baseline _ _ (steps_extends user api w1 w2 Hsteps)).
    by apply Hstored.
Qed.

Lemma findID_memoised_witness :
  let w1 := (findID sample_user sample_api "Utrecht" (Some "&countryBias=FR")
               empty_world).2 in
  (length (requests w1) ≤ length (requests empty_world) + 2)%nat ∧
  (truthy (Some "&countryBias=FR") = false →
   (length (requests w1) ≤ length (requests empty_world) + 1)%nat) ∧
  ∀ w2, steps sample_user sample_api w1 w2 →
        findID sample_user sample_api "Utrecht" (Some "&countryBias=FR") w2
        = (Ok (IdRes 2745912), log_call ("Utrecht", Some "&countryBias=FR") w2) ∧
        requests (log_call ("Utrecht", Some "&countryBias=FR") w2) = requests w2.
Proof.
  apply (proj1 (findID_memoised sample_user sample_api)
           "Utrecht" (Some "&countryBias=FR") empty_world).
  vm_compute. reflexivity.
Defined.

(** C7, as stated, fails: resolving one (text, bias) pair twice can send two
    requests, the biased search and the search of the fall-back. *)
Lemma findID_fallback_two_requests :
  let k := ("Utrecht", Some "&countryBias=FR") in
  let w1 := (findID sample_user sample_api k.1 k.2 empty_world).2 in
  let w2 := (findID sample_user sample_api k.1 k.2 w1).2 in
  requests w2
  = [baseline_URL sample_user "Utrecht";
     biased_URL sample_user "Utrecht" "&countryBias=FR"] ∧
  ¬ (length (requests w2) ≤ 1)%nat.
Proof.
  split.
  - vm_compute. reflexivity.
  - vm_compute. lia.
Qed.

(** ** The two passes *)

Lemma at_predID_labels df index v : labels (at_predID df index v) = labels df.
Proof.
  unfold labels, at_predID. rewrite <- list_fmap_compose.
  apply list_fmap_ext. intros _ [i r] _. simpl. by destruct (i =? index)%nat.
Qed.

Lemma at_predID_other df index v i r :
  i ≠ index → (i, r) ∈ df → (i, r) ∈ at_predID df index v.
Proof.
  intros Hne Hin. unfold at_predID. apply list_elem_of_fmap.
  exists (i, r). split; [|done]. simpl.
  by apply Nat.eqb_neq in Hne as ->.
Qed.

Lemma unresolved_rows_labels df i :
  i ∈ labels (unresolved_rows df) → ∃ r, (i, r) ∈ df ∧ predID r = 0.
Proof.
  unfold labels, unresolved_rows. intros Hi.
  apply list_elem_of_fmap in Hi as ([j r] & -> & Hin).
  apply list_elem_of_filter in Hin as [Hz Hin]. by exists r.
Qed.

(** Under distinct labels, a label names one row. *)
Lemma labels_functional {A} (df : frame A) i x y :
  NoDup (labels df) → (i, x) ∈ df → (i, y) ∈ df → x = y.
Proof.
  unfold labels. induction df as [|[j z] df IH]; intros ND Hx Hy.
  - inversion Hx.
  - rewrite fmap_cons in ND. apply NoDup_cons in ND as [Hj ND].
    apply elem_of_cons in Hx as [Hx|Hx], Hy as [Hy|Hy]; simplify_eq/=.
    + done.
    + exfalso. apply Hj, list_elem_of_fmap. by exists (j, y).
    + exfalso. apply Hj, list_elem_of_fmap. by exists (j, x).
    + by apply IH.
Qed.

Section article_facts.
Context (O : set_order) (user : string) (api : service).

Lemma findID_calls placeName codes w :
  calls (findID user api placeName codes w).2 = (placeName, codes) :: calls w.
Proof.
  destruct (findID_effect user api placeName codes w) as (r & w' & E & Hc & _).
  by rewrite E.
Qed.

Lemma phase_one_labels rows : ∀ df codes w df1 codes1 w1,
  phase_one user api rows df codes w = (Ok (df1, codes1), w1) →
  labels df1 = labels df.
Proof.
  induction rows as [|[index a] rows IH]; intros df codes w df1 codes1 w1 E.
  - by injection E as <- _ _.
  - cbn [phase_one] in E. unfold mbind, M_bind in E.
    destruct (findID user api (toponym a) None w) as [[[id cc|id]|e] w0];
      [|discriminate..].
    apply IH in E. by rewrite E, at_predID_labels.
Qed.

(** The second pass calls [findID] once for each selected row, in order,
    and writes only under the labels of those rows. *)
Lemma phase_two_effect codesURL rows : ∀ df w out w',
  phase_two user api codesURL rows df w = (Ok out, w') →
  calls w' = reverse (phase_two_calls codesURL rows) ++ calls w ∧
  labels out = labels df ∧
  ∀ i r, i ∉ labels rows → (i, r) ∈ df → (i, r) ∈ out.
Proof.
  induction rows as [|[index a] rows IH]; intros df w out w' E.
  - injection E as <- <-. by split_and!.
  - cbn [phase_two] in E. unfold mbind, M_bind in E.
    pose proof (findID_calls (toponym a) (Some codesURL) w) as Hcalls.
    cbn [snd] in E.
    destruct (findID user api (toponym a) (Some codesURL) w)
      as [[[id cc|id]|e] w0]; [discriminate| |discriminate].
    apply IH in E as (Hc & Hl & Hkeep). simpl in Hcalls. split_and!.
    + rewrite Hc, Hcalls. unfold phase_two_calls.
      rewrite fmap_cons, reverse_cons, <- app_assoc. done.
    + by rewrite Hl, at_predID_labels.
    + intros i r Hi Hin. apply Hkeep.
      * intros Hi'. apply Hi. unfold labels. rewrite fmap_cons. by right.
      * apply at_predID_other; [|done].
        intros ->. apply Hi. unfold labels. rewrite fmap_cons. by left.
Qed.
End article_facts.

(** C2. In [processArticle], on an article whose rows have distinct labels:
    the second pass calls [findID] exactly for the rows whose id after the
    first pass is 0, in their order, with the bias built from the first
    pass; every row whose id after the first pass is not 0 is in the result
    as the first pass left it. *)
Theorem processArticle_keeps_phase_one (O : set_order) (user : string)
    (api : service) (data : frame annotation) (w : world)
    (out : frame row) (w' : world) :
  NoDup (labels data) →
  processArticle O user api data w = (Ok out, w') →
  ∃ df1 codes w1,
    phase_one user api data (with_predID_0 data) [] w = (Ok (df1, codes), w1) ∧
    calls w'
      = reverse (phase_two_calls (makeString O codes) (unresolved_rows df1))
        ++ calls w1 ∧
    labels out = labels data ∧
    ∀ i r, (i, r) ∈ df1 → predID r ≠ 0 → (i, r) ∈ out.
Proof.
  intros ND E. unfold processArticle in E.
  destruct data as [|a0 data0] eqn:Hdata; [discriminate|]. rewrite <- Hdata in *.
  clear Hdata a0 data0.
  unfold mbind, M_bind in E.
  destruct (phase_one user api data (with_predID_0 data) [] w)
    as [[[df1 codes]|e] w1] eqn:E1; [|discriminate].
  pose proof (phase_one_labels user api _ _ _ _ _ _ _ E1) as Hl1.
  assert (labels (with_predID_0 data) = labels data) as Hl0.
  { unfold labels, with_predID_0. rewrite <- list_fmap_compose.
    by apply list_fmap_ext. }
  apply phase_two_effect in E as (Hc & Hl & Hkeep).
  exists df1, codes, w1. split_and!; [done|done|congruence|].
  intros i r Hin Hnz. apply Hkeep; [|done].
  intros Hi. apply unresolved_rows_labels in Hi as (r0 & Hin0 & Hz).
  assert (r = r0); [|congruence].
  eapply (labels_functional df1 i); [|exact Hin|exact Hin0].
  congruence.
Qed.

Lemma processArticle_keeps_phase_one_witness :
  let w' := (processArticle listed_order sample_user sample_api
               sample_article empty_world).2 in
  ∃ df1 codes w1,
    phase_one sample_user sample_api sample_article
      (with_predID_0 sample_article) [] empty_world = (Ok (df1, codes), w1) ∧
    calls w'
      = reverse (phase_two_calls (makeString listed_order codes)
                   (unresolved_rows df1)) ++ calls w1 ∧
    labels sample_out = labels sample_article ∧
    ∀ i r, (i, r) ∈ df1 → predID r ≠ 0 → (i, r) ∈ sample_out.
Proof.
  apply (processArticle_keeps_phase_one listed_order sample_user sample_api
           sample_article empty_world sample_out).
  - apply (bool_decide_unpack _). vm_compute. exact I.
  - vm_compute. reflexivity.
Defined.

(** In the sample run the second pass asks for the two rows the first pass
    left at 0 and not for the country. *)
Example processArticle_sample_calls :
  calls (processArticle listed_order sample_user sample_api sample_article
           empty_world).2
  = [("Atlantis", Some "&countryBias=NL"); ("Utrecht", Some "&countryBias=NL");
     ("Atlantis", None); ("Utrecht", None); ("Nederland", None)].
Proof. vm_compute. reflexivity. Qed.

(** ** Runs that return *)

Section returns.
Context (O : set_order) (user : string) (api : service).
Hypothesis api_ok : answers_well api.

Lemma findID_baseline_returns placeName w :
  ∃ id w', findID_baseline user api placeName w = (Ok id, w') ∧
           findID_cache w' = findID_cache w.
Proof.
  unfold findID_baseline, lru_baseline.
  destruct (baseline_cache w !! placeName) as [v|]; [by eexists _, _|].
  unfold findID_baseline_body, requests_get, lift, mbind, M_bind, mret, M_ret.
  destruct (api_ok (requests w) (baseline_URL user placeName))
    as (cands & n & ->).
  destruct (len_data _ =? 0)%nat; [by eexists _, _|].
  destruct cands as [|c cands]; by eexists _, _.
Qed.

Lemma findID_body_returns placeName codes w :
  ∃ v w', findID_body user api (placeName, codes) w = (Ok v, w') ∧
          fits codes v = true ∧ findID_cache w' = findID_cache w.
Proof.
  unfold findID_body, requests_get, lift, mbind, M_bind, mret, M_ret.
  destruct (truthy codes) eqn:Ht.
  - destruct (api_ok (requests w) (biased_URL user placeName (default "" codes)))
      as (cands & n & ->).
    destruct (len_data _ =? 0)%nat; [by eexists _, _|].
    destruct cands as [|c cands].
    + cbn [get_geonames geonames fmap list_fmap].
      destruct (findID_baseline_returns placeName
                  (log_request (biased_URL user placeName (default "" codes)) w))
        as (id & w' & -> & Hc).
      by eexists _, _.
    + by eexists _, _.
  - destruct (api_ok (requests w) (country_URL user placeName))
      as (cands & n & ->).
    destruct (len_data _ =? 0)%nat; [eexists _, _; (split; [done|]); simpl; by rewrite Ht|].
    destruct cands as [|c cands]; [eexists _, _; (split; [done|]); simpl; by rewrite Ht|].
    cbn [get_geonames geonames]. rewrite fmap_cons.
    cbn [get_fcode to_json fcode].
    destruct (String.eqb (featureCode c) "CONT");
      [eexists _, _; (split; [done|]); simpl; by rewrite Ht|].
    pose proof (scan_options_find (c :: cands)) as Hscan.
    rewrite fmap_cons in Hscan. rewrite Hscan.
    destruct (List.find _ (c :: cands)); eexists _, _; (split; [done|]);
    simpl; by rewrite Ht.
Qed.

Lemma findID_returns placeName codes w :
  cache_fits w →
  ∃ v w', findID user api placeName codes w = (Ok v, w') ∧
          fits codes v = true ∧ cache_fits w'.
Proof.
  intros Hw.
  destruct (findID_cache w !! (placeName, codes)) as [v|] eqn:Hc.
  - rewrite (findID_hit user api placeName codes v w Hc).
    eexists _, _. split; [done|]. split; [by eapply Hw|exact Hw].
  - rewrite (findID_miss user api placeName codes w Hc).
    destruct (findID_body_returns placeName codes
                (log_call (placeName, codes) w)) as (v & w' & -> & Hv & Hc').
    eexists _, _. split; [done|]. split; [done|].
    intros p c v'. simpl. rewrite Hc'. simpl.
    destruct (decide ((placeName, codes) = (p, c))) as [[= <- <-]|Hne].
    + rewrite lookup_insert_eq. by intros [= <-].
    + rewrite lookup_insert_ne by done. apply Hw.
Qed.

Lemma makeString_truthy codesList : truthy (Some (makeString O codesList)) = true.
Proof.
  unfold makeString. by destruct (set_iter O codesList) as [|c [|d r]].
Qed.

Lemma phase_one_returns rows : ∀ df codes w,
  cache_fits w →
  ∃ df1 codes1 w1,
    phase_one user api rows df codes w = (Ok (df1, codes1), w1) ∧ cache_fits w1.
Proof.
  induction rows as [|[index a] rows IH]; intros df codes w Hw.
  - by eexists _, _, _.
  - cbn [phase_one]. unfold mbind, M_bind.
    destruct (findID_returns (toponym a) None w Hw) as (v & w' & -> & Hv & Hw').
    destruct v as [id cc|id]; [|discriminate]. by apply IH.
Qed.

Lemma phase_two_returns codesURL rows : ∀ df w,
  truthy (Some codesURL) = true → cache_fits w →
  ∃ out w', phase_two user api codesURL rows df w = (Ok out, w').
Proof.
  induction rows as [|[index a] rows IH]; intros df w Ht Hw.
  - by eexists _, _.
  - cbn [phase_two]. unfold mbind, M_bind.
    destruct (findID_returns (toponym a) (Some codesURL) w Hw)
      as (v & w' & -> & Hv & Hw').
    destruct v as [id cc|id]; [|by apply IH].
    unfold fits in Hv. rewrite Ht in Hv. discriminate.
Qed.

(** With a service that answers well, on stored results of the right shape,
    no lookup and no unpacking in the two passes raises, on any non-empty
    article. (That the ids fit the [predID] column is shown separately, see
    [phase_one_int64] and [phase_two_int64].) *)
Lemma processArticle_runs data w :
  data ≠ [] → cache_fits w →
  ∃ out w', processArticle O user api data w = (Ok out, w').
Proof.
  intros Hne Hw. unfold processArticle.
  destruct data as [|a0 data0] eqn:Hdata; [done|]. rewrite <- Hdata.
  unfold mbind, M_bind.
  destruct (phase_one_returns data (with_predID_0 data) [] w Hw)
    as (df1 & codes & w1 & -> & Hw1).
  apply phase_two_returns; [apply makeString_truthy|done].
Qed.
End returns.

Lemma cache_fits_empty : cache_fits empty_world.
Proof. intros p c v H. simpl in H. by rewrite lookup_empty in H. Qed.

(** * Further properties of the resolver *)

Section resolver_cases.
Context (user : string) (api : service).

Lemma findID_baseline_miss placeName w :
  baseline_cache w !! placeName = None →
  findID_baseline user api placeName w
  = match findID_baseline_body user api placeName w with
    | (Ok v, w') => (Ok v, store_baseline placeName v w')
    | (Raise e, w') => (Raise e, w')
    end.
Proof. intros Hc. unfold findID_baseline, lru_baseline. by rewrite Hc. Qed.

(** The body of [findID] again, with what it leaves in the two tables. *)
Lemma findID_body_tables k w :
  ∃ r w', findID_body user api k w = (r, w') ∧
    findID_cache w' = findID_cache w ∧
    (length (requests w) < length (requests w'))%nat ∧
    (baseline_cache w' = baseline_cache w ∨
     ∃ id, r = Ok (IdRes id) ∧ truthy k.2 = true ∧
           baseline_cache w !! k.1 = None ∧
           baseline_cache w' = <[k.1 := id]> (baseline_cache w)).
Proof.
  destruct k as [placeName codes].
  unfold findID_body, requests_get, lift, mbind, M_bind, mret, M_ret.
  destruct (truthy codes) eqn:Ht.
  - set (w1 := log_request _ w).
    destruct (api (requests w) _) as [data|e].
    2:{ eexists _, _. split; [done|]. split_and!; [done|simpl; lia|by left]. }
    destruct (len_data data =? 0)%nat.
    { eexists _, _. split; [done|]. split_and!; [done|simpl; lia|by left]. }
    destruct (get_geonames data) as [[|firstOption rest]|e].
    + destruct (baseline_cache w !! placeName) as [v|] eqn:Hb.
      * rewrite (findID_baseline_hit user api placeName v w1) by done.
        eexists _, _. split; [done|]. split_and!; [done|simpl; lia|by left].
      * rewrite (findID_baseline_miss placeName w1) by done.
        pose proof (findID_baseline_body_effect user api placeName w1) as E.
        destruct (findID_baseline_body user api placeName w1) as [[v|e] w2];
          simpl in E; subst w2; eexists _, _; (split; [done|]);
          (split_and!; [done|simpl; lia|]).
        -- right. by exists v.
        -- by left.
    + destruct (get_geonameId firstOption); eexists _, _; (split; [done|]);
        (split_and!; [done|simpl; lia|by left]).
    + eexists _, _. split; [done|]. split_and!; [done|simpl; lia|by left].
  - destruct (api (requests w) _) as [data|e].
    2:{ eexists _, _. split; [done|]. split_and!; [done|simpl; lia|by left]. }
    repeat (case_match; simplify_eq/=);
      eexists _, _; (split; [done|]);
      (split_and!; [done|simpl; lia|by left]).
Qed.

(** findID_baseline, case by case. On a key not yet stored it sends one
    request and: returns 0 for an empty body and for an empty candidate
    list; returns the id of the first candidate, whatever follows it;
    raises [KeyError] for a non-empty body without ["geonames"] and for a
    first candidate without ["geonameId"]. What it returns is stored; when
    it raises, nothing is. *)
Theorem findID_baseline_cases placeName w data :
  baseline_cache w !! placeName = None →
  api (requests w) (baseline_URL user placeName) = Ok data →
  let w1 := log_request (baseline_URL user placeName) w in
  let run := findID_baseline user api placeName w in
  (len_data data = 0%nat → run = (Ok 0, store_baseline placeName 0 w1)) ∧
  (geonames data = Some [] → run = (Ok 0, store_baseline placeName 0 w1)) ∧
  (∀ top rest id,
     geonames data = Some (top :: rest) → geonameId top = Some id →
     run = (Ok id, store_baseline placeName id w1)) ∧
  (len_data data ≠ 0%nat → geonames data = None →
     run = (Raise (KeyError "geonames"), w1)) ∧
  (∀ top rest,
     geonames data = Some (top :: rest) → geonameId top = None →
     run = (Raise (KeyError "geonameId"), w1)).
Proof.
  intros Hc Hapi w1 run. subst run.
  rewrite (findID_baseline_miss placeName w Hc).
  unfold findID_baseline_body, requests_get, lift, mbind, M_bind, mret, M_ret.
  rewrite Hapi. fold w1.
  assert (∀ g, geonames data = Some g → (len_data data =? 0)%nat = false) as Hlen.
  { intros g Hg. apply Nat.eqb_neq. unfold len_data. rewrite Hg. lia. }
  split_and!.
  - by intros ->.
  - intros Hg. rewrite (Hlen _ Hg). unfold get_geonames. by rewrite Hg.
  - intros top rest id Hg Hid. rewrite (Hlen _ Hg).
    unfold get_geonames, get_geonameId. by rewrite Hg, Hid.
  - intros Hn Hg. apply Nat.eqb_neq in Hn. rewrite Hn.
    unfold get_geonames. by rewrite Hg.
  - intros top rest Hg Hid. rewrite (Hlen _ Hg).
    unfold get_geonames, get_geonameId. by rewrite Hg, Hid.
Qed.

(** A call that raises has sent at least one request and stored nothing, in
    either table: the key was not stored before and is not stored after, so
    the same call made again sends its request again. *)
Theorem raising_call_stores_nothing :
  (∀ placeName codes w e w',
     findID user api placeName codes w = (Raise e, w') →
     findID_cache w !! (placeName, codes) = None ∧
     findID_cache w' = findID_cache w ∧
     baseline_cache w' = baseline_cache w ∧
     (length (requests w) < length (requests w'))%nat) ∧
  (∀ placeName w e w',
     findID_baseline user api placeName w = (Raise e, w') →
     baseline_cache w !! placeName = None ∧
     findID_cache w' = findID_cache w ∧
     baseline_cache w' = baseline_cache w ∧
     (length (requests w) < length (requests w'))%nat).
Proof.
  split.
  - intros placeName codes w e w' E.
    destruct (findID_cache w !! (placeName, codes)) as [v|] eqn:Hc.
    { by rewrite (findID_hit user api placeName codes v w Hc) in E. }
    rewrite (findID_miss user api placeName codes w Hc) in E.
    destruct (findID_body_tables (placeName, codes)
                (log_call (placeName, codes) w))
      as (r & w0 & E0 & Hf & Hlen & Hb).
    rewrite E0 in E. destruct r as [v|e0]; [discriminate|].
    injection E as _ <-. split_and!; [done|done| |done].
    destruct Hb as [Hb|(id & Hr & _)]; [done|discriminate].
  - intros placeName w e w' E.
    destruct (baseline_cache w !! placeName) as [v|] eqn:Hc.
    { by rewrite (findID_baseline_hit user api placeName v w Hc) in E. }
    rewrite (findID_baseline_miss placeName w Hc) in E.
    pose proof (findID_baseline_body_effect user api placeName w) as E0.
    destruct (findID_baseline_body user api placeName w) as [[v|e0] w0];
      [discriminate|].
    injection E as _ <-. simpl in E0. subst w0. split_and!; try done.
    simpl. lia.
Qed.

(** An error reply of the service, a non-empty body without ["geonames"],
    makes [findID] raise [KeyError] in either mode, after its one request. *)
Theorem findID_error_reply_raises placeName codes w data :
  findID_cache w !! (placeName, codes) = None →
  api (requests w) (mode_URL user placeName codes) = Ok data →
  geonames data = None → len_data data ≠ 0%nat →
  findID user api placeName codes w
  = (Raise (KeyError "geonames"),
     log_request (mode_URL user placeName codes)
       (log_call (placeName, codes) w)).
Proof.
  intros Hc Hapi Hg Hn. rewrite (findID_miss user api placeName codes w Hc).
  unfold mode_URL in *.
  unfold findID_body, requests_get, lift, mbind, M_bind, mret, M_ret.
  apply Nat.eqb_neq in Hn. revert Hapi.
  destruct (truthy codes); intros Hapi; cbv beta iota;
    change (requests (log_call (placeName, codes) w)) with (requests w);
    rewrite Hapi, Hn; unfold get_geonames; by rewrite Hg.
Qed.

(** In biased mode an empty body gives 0 at once: the fall-back is not
    called, and the one request sent is the biased one. *)
Theorem findID_bias_empty_body placeName codes w data :
  codes ≠ "" →
  findID_cache w !! (placeName, Some codes) = None →
  api (requests w) (biased_URL user placeName codes) = Ok data →
  len_data data = 0%nat →
  findID user api placeName (Some codes) w
  = (Ok (IdRes 0),
     store_findID (placeName, Some codes) (IdRes 0)
       (log_request (biased_URL user placeName codes)
          (log_call (placeName, Some codes) w))).
Proof.
  intros Hne Hc Hapi Hlen.
  rewrite (findID_miss user api placeName (Some codes) w Hc).
  unfold findID_body, requests_get, lift, mbind, M_bind, mret, M_ret.
  assert (truthy (Some codes) = true) as ->.
  { simpl. apply negb_true_iff, String.eqb_neq, Hne. }
  cbv beta iota.
  change (requests (log_call (placeName, Some codes) w)) with (requests w).
  change (default "" (Some codes)) with codes.
  by rewrite Hapi, Hlen.
Qed.

(** The fall-back shares the table of [findID_baseline]: when the text has
    a stored baseline result, a biased search that finds nothing returns
    that result and sends the biased request only. *)
Theorem findID_fallback_uses_baseline_cache placeName codes w data id :
  codes ≠ "" →
  findID_cache w !! (placeName, Some codes) = None →
  api (requests w) (biased_URL user placeName codes) = Ok data →
  geonames data = Some [] →
  baseline_cache w !! placeName = Some id →
  findID user api placeName (Some codes) w
  = (Ok (IdRes id),
     store_findID (placeName, Some codes) (IdRes id)
       (log_request (biased_URL user placeName codes)
          (log_call (placeName, Some codes) w))).
Proof.
  intros Hne Hc Hapi Hg Hb.
  rewrite (findID_miss user api placeName (Some codes) w Hc).
  unfold findID_body, requests_get, lift, mbind, M_bind, mret, M_ret.
  assert (truthy (Some codes) = true) as ->.
  { simpl. apply negb_true_iff, String.eqb_neq, Hne. }
  cbv beta iota.
  change (requests (log_call (placeName, Some codes) w)) with (requests w).
  change (default "" (Some codes)) with codes.
  rewrite Hapi.
  assert ((len_data data =? 0)%nat = false) as ->.
  { apply Nat.eqb_neq. unfold len_data. rewrite Hg. lia. }
  unfold get_geonames. rewrite Hg.
  by rewrite (findID_baseline_hit user api placeName id) by done.
Qed.

Lemma scan_options_result geodata id cc :
  scan_options geodata = Ok (id, cc) →
  (id = 0 ∧ cc = []) ∨
  ∃ c f, c ∈ geodata ∧ fcode c = Some f ∧ String.prefix "PCL" f = true ∧
         geonameId c = Some id ∧ cc = option_list (countryCode c).
Proof.
  induction geodata as [|c geodata IH]; intros E.
  - injection E as <- <-. by left.
  - cbn [scan_options] in E. unfold get_fcode, get_geonameId in E.
    destruct (fcode c) as [f|] eqn:Hf; [|discriminate].
    cbn [mbind res_bind] in E.
    destruct (String.prefix "PCL" f) eqn:Hp.
    + destruct (geonameId c) as [i|] eqn:Hi; [|discriminate].
      cbn [mbind res_bind] in E. injection E as <- <-.
      right. exists c, f.
      split_and!; [left|done|done|done|by destruct (countryCode c)].
    + destruct (IH E) as [?|(c' & f' & Hin & ?)]; [by left|].
      right. exists c', f'. split; [by right|done].
Qed.

(** What country mode can return, whatever the service answers: a pair of
    an id and at most one country code. Either it is [(0, [])], or the id
    is that of a candidate in the answer: the first one, a continent, with
    no country code; or one whose feature code begins with "PCL", with its
    country code if it has one. No other candidate contributes an id or a
    country code. *)
Theorem findID_country_result placeName w v w' :
  findID_cache w !! (placeName, None) = None →
  findID user api placeName None w = (Ok v, w') →
  ∃ id cc, v = CountryRes id cc ∧ (length cc ≤ 1)%nat ∧
    ((id = 0 ∧ cc = []) ∨
     ∃ data cands c,
       api (requests w) (country_URL user placeName) = Ok data ∧
       geonames data = Some cands ∧ c ∈ cands ∧ geonameId c = Some id ∧
       ((head cands = Some c ∧ fcode c = Some "CONT" ∧ cc = []) ∨
        ∃ f, fcode c = Some f ∧ String.prefix "PCL" f = true ∧
             cc = option_list (countryCode c))).
Proof.
  intros Hc E. rewrite (findID_miss user api placeName None w Hc) in E.
  unfold findID_body, requests_get, lift, mbind, M_bind, mret, M_ret in E.
  cbn [truthy] in E. cbv beta iota in E.
  change (requests (log_call (placeName, None) w)) with (requests w) in E.
  destruct (api (requests w) (country_URL user placeName)) as [data|e] eqn:Hapi;
    [|discriminate].
  destruct (len_data data =? 0)%nat.
  { injection E as <- _. exists 0, []. split_and!; [done|simpl; lia|by left]. }
  unfold get_geonames in E.
  destruct (geonames data) as [cands|] eqn:Hg; [|discriminate].
  destruct cands as [|top rest].
  { injection E as <- _. exists 0, []. split_and!; [done|simpl; lia|by left]. }
  unfold get_fcode at 1 in E.
  destruct (fcode top) as [f|] eqn:Hf; [|discriminate].
  destruct (String.eqb f "CONT") eqn:Hcont.
  - unfold get_geonameId in E.
    destruct (geonameId top) as [i|] eqn:Hi; [|discriminate].
    injection E as <- _. exists i, []. split_and!; [done|simpl; lia|].
    right. exists data, (top :: rest), top. split_and!; try done; [left|].
    left. apply String.eqb_eq in Hcont as ->. done.
  - destruct (scan_options (top :: rest)) as [[i cc]|e] eqn:Hs; [|discriminate].
    injection E as <- _. exists i, cc.
    destruct (scan_options_result _ _ _ Hs) as [[-> ->]|(c & f' & Hin & Hf' & Hp & Hi & ->)].
    + split_and!; [done|simpl; lia|by left].
    + split_and!; [done|destruct (countryCode c); simpl; lia|].
      right. exists data, (top :: rest), c. split_and!; try done.
      right. by exists f'.
Qed.

(** A call writes under its own key only: every other entry of the table
    of [findID] is as before; of the table of [findID_baseline], only the
    entry of the same text can change, and only in biased mode. And
    [findID_baseline] leaves the table of [findID] alone. *)
Theorem call_touches_own_key :
  (∀ placeName codes w k,
     k ≠ (placeName, codes) →
     findID_cache (findID user api placeName codes w).2 !! k
     = findID_cache w !! k) ∧
  (∀ placeName codes w p,
     p ≠ placeName ∨ truthy codes = false →
     baseline_cache (findID user api placeName codes w).2 !! p
     = baseline_cache w !! p) ∧
  (∀ placeName w p,
     p ≠ placeName →
     baseline_cache (findID_baseline user api placeName w).2 !! p
     = baseline_cache w !! p ∧
     findID_cache (findID_baseline user api placeName w).2 = findID_cache w).
Proof.
  split_and!.
  - intros placeName codes w k Hk.
    destruct (findID_cache w !! (placeName, codes)) as [v|] eqn:Hc.
    { by rewrite (findID_hit user api placeName codes v w Hc). }
    rewrite (findID_miss user api placeName codes w Hc).
    destruct (findID_body_tables (placeName, codes)
                (log_call (placeName, codes) w))
      as (r & w0 & -> & Hf & _ & _).
    destruct r as [v|e]; simpl; rewrite Hf; simpl; [|done].
    by rewrite lookup_insert_ne.
  - intros placeName codes w p Hp.
    destruct (findID_cache w !! (placeName, codes)) as [v|] eqn:Hc.
    { by rewrite (findID_hit user api placeName codes v w Hc). }
    rewrite (findID_miss user api placeName codes w Hc).
    destruct (findID_body_tables (placeName, codes)
                (log_call (placeName, codes) w))
      as (r & w0 & -> & _ & _ & Hb).
    assert (baseline_cache w0 !! p = baseline_cache w !! p) as Hw0.
    { destruct Hb as [->|(id & _ & Ht & _ & ->)]; [done|]. simpl in *.
      destruct Hp as [Hp|Hp]; [|congruence].
      by rewrite lookup_insert_ne. }
    by destruct r.
  - intros placeName w p Hp.
    split.
    2:{ destruct (findID_baseline_effect user api placeName w)
          as (r & w1 & E & _ & Hf & _). by rewrite E. }
    destruct (baseline_cache w !! placeName) as [v|] eqn:Hc.
    { by rewrite (findID_baseline_hit user api placeName v w Hc). }
    rewrite (findID_baseline_miss placeName w Hc).
    pose proof (findID_baseline_body_effect user api placeName w) as E0.
    destruct (findID_baseline_body user api placeName w) as [[v|e] w0];
      simpl in E0; subst w0; simpl; [|done].
    by rewrite lookup_insert_ne.
Qed.
End resolver_cases.

Lemma findID_baseline_cases_witness :
  findID_baseline sample_user sample_api "Utrecht" empty_world
  = (Ok 2745912,
     store_baseline "Utrecht" 2745912
       (log_request (baseline_URL sample_user "Utrecht") empty_world)).
Proof.
  exact (proj1 (proj2 (proj2
           (findID_baseline_cases sample_user sample_api "Utrecht" empty_world
              {| geonames := Some [to_json Utrecht]; other_keys := 1 |}
              eq_refl eq_refl)))
           (to_json Utrecht) [] 2745912 eq_refl eq_refl).
Defined.

Lemma raising_call_stores_nothing_witness :
  let w' := (findID sample_user sample_api "Nergens" (Some "&countryBias=NL")
               empty_world).2 in
  findID_cache empty_world !! ("Nergens", Some "&countryBias=NL") = None ∧
  findID_cache w' = findID_cache empty_world ∧
  baseline_cache w' = baseline_cache empty_world ∧
  (length (requests empty_world) < length (requests w'))%nat.
Proof.
  apply (proj1 (raising_call_stores_nothing sample_user sample_api)
           "Nergens" (Some "&countryBias=NL") empty_world
           (KeyError "geonameId")).
  vm_compute. reflexivity.
Defined.

Lemma findID_error_reply_raises_witness :
  findID sample_user quota_api "Utrecht" None empty_world
  = (Raise (KeyError "geonames"),
     log_request (mode_URL sample_user "Utrecht" None)
       (log_call ("Utrecht", None) empty_world)).
Proof.
  apply (findID_error_reply_raises sample_user quota_api "Utrecht" None
           empty_world {| geonames := None; other_keys := 1 |});
    [reflexivity|reflexivity|reflexivity|discriminate].
Defined.

Lemma findID_bias_empty_body_witness :
  findID sample_user silent_api "Utrecht" (Some "&countryBias=NL") empty_world
  = (Ok (IdRes 0),
     store_findID ("Utrecht", Some "&countryBias=NL") (IdRes 0)
       (log_request (biased_URL sample_user "Utrecht" "&countryBias=NL")
          (log_call ("Utrecht", Some "&countryBias=NL") empty_world))).
Proof.
  apply (findID_bias_empty_body sample_user silent_api "Utrecht"
           "&countryBias=NL" empty_world {| geonames := None; other_keys := 0 |});
    [discriminate|reflexivity|reflexivity|reflexivity].
Defined.

Lemma findID_fallback_uses_baseline_cache_witness :
  let w := (findID_baseline sample_user sample_api "Utrecht" empty_world).2 in
  findID sample_user sample_api "Utrecht" (Some "&countryBias=FR") w
  = (Ok (IdRes 2745912),
     store_findID ("Utrecht", Some "&countryBias=FR") (IdRes 2745912)
       (log_request (biased_URL sample_user "Utrecht" "&countryBias=FR")
          (log_call ("Utrecht", Some "&countryBias=FR") w))).
Proof.
  apply (findID_fallback_uses_baseline_cache sample_user sample_api "Utrecht"
           "&countryBias=FR" _ {| geonames := Some []; other_keys := 1 |});
    [discriminate|reflexivity|reflexivity|reflexivity|].
  vm_compute. reflexivity.
Defined.

Lemma findID_country_result_witness :
  ∃ id cc, CountryRes 2750405 ["NL"] = CountryRes id cc ∧ (length cc ≤ 1)%nat ∧
    ((id = 0 ∧ cc = []) ∨
     ∃ data cands c,
       sample_api (requests empty_world) (country_URL sample_user "Nederland")
         = Ok data ∧
       geonames data = Some cands ∧ c ∈ cands ∧ geonameId c = Some id ∧
       ((head cands = Some c ∧ fcode c = Some "CONT" ∧ cc = []) ∨
        ∃ f, fcode c = Some f ∧ String.prefix "PCL" f = true ∧
             cc = option_list (countryCode c))).
Proof.
  apply (findID_country_result sample_user sample_api "Nederland" empty_world
           (CountryRes 2750405 ["NL"])
           (findID sample_user sample_api "Nederland" None empty_world).2).
  - reflexivity.
  - vm_compute. reflexivity.
Defined.

Lemma call_touches_own_key_witness :
  findID_cache (findID sample_user sample_api "Utrecht" (Some "&countryBias=FR")
                  empty_world).2 !! ("Utrecht", None)
  = findID_cache empty_world !! ("Utrecht", None).
Proof.
  apply (proj1 (call_touches_own_key sample_user sample_api)
           "Utrecht" (Some "&countryBias=FR") empty_world ("Utrecht", None)).
  discriminate.
Defined.

(** * Further properties of the bias builder *)

Lemma makeString_only (O : set_order) c l :
  only_code c l → makeString O l = "&countryBias=" +:+ c.
Proof.
  intros Hc. unfold makeString. rewrite (set_iter_only O c l Hc).
  destruct Hc as [Hne Hall]. destruct l as [|x r]; [done|].
  simpl. f_equal. apply Hall. left.
Qed.

(** With at most one distinct code the directive does not depend on the
    iteration order, nor on how often or in what order the code is listed:
    two lists with the same codes get the same directive. *)
Theorem makeString_single_order_free (O1 O2 : set_order) (l1 l2 : list string) :
  ¬ two_distinct l1 → (∀ x, x ∈ l1 ↔ x ∈ l2) →
  makeString O1 l1 = makeString O2 l2.
Proof.
  intros Hn Hset. destruct l1 as [|c r].
  - assert (l2 = []) as ->.
    { destruct l2 as [|y l2]; [done|].
      assert (y ∈ @nil string) as H by (apply Hset; left). inversion H. }
    unfold makeString. by rewrite !set_iter_of_nil.
  - assert (∀ x, x ∈ c :: r → x = c) as Hall.
    { intros x Hx. destruct (decide (x = c)) as [|Hne]; [done|].
      exfalso. apply Hn. exists x, c. split_and!; [done|left|done]. }
    rewrite (makeString_only O1 c (c :: r)) by (split; [done|exact Hall]).
    rewrite (makeString_only O2 c l2); [done|]. split.
    + intros ->. assert (c ∈ @nil string) as H by (apply Hset; left).
      inversion H.
    + intros x Hx. apply Hall, Hset, Hx.
Qed.

Lemma makeString_single_order_free_witness :
  makeString listed_order ["NL"; "NL"; "NL"] = makeString reversed_order ["NL"].
Proof.
  apply (makeString_single_order_free listed_order reversed_order
           ["NL"; "NL"; "NL"] ["NL"]).
  - intros (a & b & Ha & Hb & Hab). apply Hab.
    repeat (apply elem_of_cons in Ha as [->|Ha]);
      repeat (apply elem_of_cons in Hb as [->|Hb]);
      try reflexivity; by (inversion Ha || inversion Hb).
  - intros x. rewrite !elem_of_cons, !elem_of_nil. tauto.
Defined.

Lemma findID_body_biased user api placeName codes w :
  truthy codes = true →
  let b := biased_URL user placeName (default "" codes) in
  let run := findID_body user api (placeName, codes) w in
  (requests run.2 = b :: requests w ∨
   requests run.2 = baseline_URL user placeName :: b :: requests w) ∧
  ∀ v, run.1 = Ok v → ∃ id, v = IdRes id.
Proof.
  intros Ht b run. subst run b.
  unfold findID_body, requests_get, lift, mbind, M_bind, mret, M_ret.
  rewrite Ht. cbv beta iota.
  set (b := biased_URL user placeName (default "" codes)).
  destruct (api (requests w) b) as [data|e]; [|by split; [left|]].
  destruct (len_data data =? 0)%nat.
  { split; [by left|]. intros v [= <-]. by eexists. }
  destruct (get_geonames data) as [[|firstOption rest]|e];
    [| |by split; [left|]].
  - destruct (findID_baseline_effect user api placeName (log_request b w))
      as (r & w2 & E & _ & _ & _ & _ & _).
    pose proof (findID_baseline_body_effect user api placeName (log_request b w))
      as Hbody.
    unfold findID_baseline, lru_baseline in E |- *.
    destruct (baseline_cache (log_request b w) !! placeName) as [v0|].
    + split; [by left|]. intros v [= <-]. by eexists.
    + destruct (findID_baseline_body user api placeName (log_request b w))
        as [[v0|e0] w3]; simpl in Hbody; subst w3; simpl.
      * split; [by right|]. intros v [= <-]. by eexists.
      * split; [by right|done].
  - destruct (get_geonameId firstOption); simpl.
    + split; [by left|]. intros v [= <-]. by eexists.
    + split; [by left|done].
Qed.

(** Every directive [makeString] builds is a non-empty string, so [findID]
    takes it as a bias: on a miss it sends the biased request with that
    directive, then at most the request of the fall-back, never the country
    request; and what it returns is a bare id. *)
Theorem directive_takes_biased_branch (O : set_order) (user : string)
    (api : service) (codesList : list string) (placeName : string) (w : world) :
  findID_cache w !! (placeName, Some (makeString O codesList)) = None →
  let b := biased_URL user placeName (makeString O codesList) in
  let run := findID user api placeName (Some (makeString O codesList)) w in
  (requests run.2 = b :: requests w ∨
   requests run.2 = baseline_URL user placeName :: b :: requests w) ∧
  ∀ v, run.1 = Ok v → ∃ id, v = IdRes id.
Proof.
  intros Hc b run. subst run b.
  rewrite (findID_miss user api placeName _ w Hc).
  destruct (findID_body_biased user api placeName
              (Some (makeString O codesList))
              (log_call (placeName, Some (makeString O codesList)) w)
              (makeString_truthy O codesList)) as [Hreq Hres].
  cbn [default] in Hreq.
  destruct (findID_body user api _ _) as [[v|e] w'] eqn:E; simpl in *.
  - split; [exact Hreq|]. intros ? [= <-]. by apply Hres.
  - split; [exact Hreq|done].
Qed.

Lemma directive_takes_biased_branch_witness :
  let b := biased_URL sample_user "Utrecht" (makeString listed_order ["NL"]) in
  let run := findID sample_user sample_api "Utrecht"
               (Some (makeString listed_order ["NL"])) empty_world in
  (requests run.2 = b :: requests empty_world ∨
   requests run.2
   = baseline_URL sample_user "Utrecht" :: b :: requests empty_world) ∧
  ∀ v, run.1 = Ok v → ∃ id, v = IdRes id.
Proof.
  apply (directive_takes_biased_branch listed_order sample_user sample_api
           ["NL"] "Utrecht" empty_world).
  reflexivity.
Defined.

(** * Further properties of the two passes *)

Lemma annots_with_predID_0 data : annots (with_predID_0 data) = data.
Proof.
  unfold annots, with_predID_0. rewrite <- list_fmap_compose.
  rewrite <- (list_fmap_id data) at 2. apply list_fmap_ext.
  by intros _ [i a] _.
Qed.

Lemma at_predID_annots df index v : annots (at_predID df index v) = annots df.
Proof.
  unfold annots, at_predID. rewrite <- list_fmap_compose.
  apply list_fmap_ext. intros _ [i r] _. simpl. by destruct (i =? index)%nat.
Qed.

Lemma at_predID_at df index v r :
  (index, r) ∈ at_predID df index v → predID r = v.
Proof.
  unfold at_predID. intros Hin.
  apply list_elem_of_fmap in Hin as ([j r0] & E & _). simpl in E.
  destruct (j =? index)%nat eqn:Hj.
  - by injection E as _ ->.
  - injection E as -> _. by rewrite Nat.eqb_refl in Hj.
Qed.

Lemma annots_elem df i r : (i, r) ∈ df → (i, annot r) ∈ annots df.
Proof.
  intros Hin. unfold annots. apply list_elem_of_fmap. by exists (i, r).
Qed.

Lemma labels_annots df : labels (annots df) = labels df.
Proof.
  unfold labels, annots. rewrite <- list_fmap_compose.
  by apply list_fmap_ext.
Qed.

Lemma labels_elem {A} (df : frame A) i :
  i ∈ labels df ↔ ∃ x, (i, x) ∈ df.
Proof.
  unfold labels. rewrite list_elem_of_fmap. split.
  - intros ([j x] & -> & Hin). by exists x.
  - intros (x & Hin). by exists (i, x).
Qed.

Section passes.
Context (O : set_order) (user : string) (api : service).

Lemma findID_stored placeName codes w v w' :
  findID user api placeName codes w = (Ok v, w') →
  extends w w' ∧ findID_cache w' !! (placeName, codes) = Some v.
Proof.
  intros E.
  destruct (findID_effect user api placeName codes w)
    as (r & w0 & E0 & _ & _ & Hext & Hst).
  rewrite E in E0. injection E0 as <- <-. split; [done|by apply Hst].
Qed.

Lemma phase_one_annots rows : ∀ df codes w df1 codes1 w1,
  phase_one user api rows df codes w = (Ok (df1, codes1), w1) →
  annots df1 = annots df.
Proof.
  induction rows as [|[index a] rows IH]; intros df codes w df1 codes1 w1 E.
  - by injection E as <- _ _.
  - cbn [phase_one] in E. unfold mbind, M_bind in E.
    destruct (findID user api (toponym a) None w) as [[[id cc|id]|e] w0];
      [|discriminate..].
    apply IH in E. by rewrite E, at_predID_annots.
Qed.

Lemma phase_two_annots codesURL rows : ∀ df w out w',
  phase_two user api codesURL rows df w = (Ok out, w') →
  annots out = annots df.
Proof.
  induction rows as [|[index a] rows IH]; intros df w out w' E.
  - by injection E as <- _.
  - cbn [phase_two] in E. unfold mbind, M_bind in E.
    destruct (findID user api (toponym a) (Some codesURL) w)
      as [[[id cc|id]|e] w0]; [discriminate| |discriminate].
    apply IH in E. by rewrite E, at_predID_annots.
Qed.

(** After the first pass, the id of a row is the one stored for its text in
    country mode. *)
Lemma phase_one_cache rows : ∀ df codes w df1 codes1 w1,
  NoDup (labels rows) → NoDup (labels df) →
  phase_one user api rows df codes w = (Ok (df1, codes1), w1) →
  extends w w1 ∧
  (∀ i r, i ∉ labels rows → (i, r) ∈ df → (i, r) ∈ df1) ∧
  ∀ i a r1, (i, a) ∈ rows → (i, r1) ∈ df1 →
    ∃ cc, findID_cache w1 !! (toponym a, None)
          = Some (CountryRes (predID r1) cc).
Proof.
  induction rows as [|[index a] rows IH];
    intros df codes w df1 codes1 w1 NDr NDd E.
  - injection E as <- _ <-. split_and!; [apply extends_refl|done|].
    intros i a r1 Hin. inversion Hin.
  - cbn [phase_one] in E. unfold mbind, M_bind in E.
    destruct (findID user api (toponym a) None w) as [[[id cc|id]|e] w0] eqn:E0;
      [|discriminate..].
    apply findID_stored in E0 as [Hext0 Hst].
    unfold labels in NDr. rewrite fmap_cons in NDr.
    apply NoDup_cons in NDr as [Hidx NDr]. simpl in Hidx.
    pose proof (phase_one_labels user api _ _ _ _ _ _ _ E) as Hl.
    rewrite at_predID_labels in Hl.
    apply IH in E as (Hext & Hkeep & Hc); [|done|by rewrite at_predID_labels].
    split_and!.
    + by eapply extends_trans.
    + intros i r Hi Hin. apply Hkeep.
      * intros Hi'. apply Hi. unfold labels. rewrite fmap_cons. by right.
      * apply at_predID_other; [|done].
        intros ->. apply Hi. unfold labels. rewrite fmap_cons. by left.
    + intros i a' r1 Hin Hin1.
      apply elem_of_cons in Hin as [[= -> ->]|Hin]; [|by eapply Hc].
      exists cc.
      assert (index ∈ labels (at_predID df index id)) as Hlab.
      { rewrite at_predID_labels, <- Hl. apply labels_elem. by exists r1. }
      apply labels_elem in Hlab as (r' & Hr').
      assert (r1 = r') as ->.
      { eapply (labels_functional df1 index); [by rewrite Hl|done|].
        by apply Hkeep. }
      rewrite (at_predID_at _ _ _ _ Hr').
      by apply (ext_findID _ _ Hext).
Qed.

(** After the second pass, the id of a row it visited is the one stored for
    its text under the bias. *)
Lemma phase_two_cache codesURL rows : ∀ df w out w',
  NoDup (labels rows) → NoDup (labels df) →
  phase_two user api codesURL rows df w = (Ok out, w') →
  extends w w' ∧
  ∀ i (r0 r : row), (i, r0) ∈ rows → (i, r) ∈ out →
    findID_cache w' !! (toponym r0, Some codesURL) = Some (IdRes (predID r)).
Proof.
  induction rows as [|[index a] rows IH]; intros df w out w' NDr NDd E.
  - injection E as <- <-. split; [apply extends_refl|].
    intros i r0 r Hin. inversion Hin.
  - cbn [phase_two] in E. unfold mbind, M_bind in E.
    destruct (findID user api (toponym a) (Some codesURL) w)
      as [[[id cc|id]|e] w0] eqn:E0; [discriminate| |discriminate].
    apply findID_stored in E0 as [Hext0 Hst].
    unfold labels in NDr. rewrite fmap_cons in NDr.
    apply NoDup_cons in NDr as [Hidx NDr]. simpl in Hidx.
    pose proof (phase_two_effect user api _ _ _ _ _ _ E) as (_ & Hl & Hkeep).
    rewrite at_predID_labels in Hl.
    apply IH in E as (Hext & Hc); [|done|by rewrite at_predID_labels].
    split; [by eapply extends_trans|].
    intros i r0 r Hin Hout.
    apply elem_of_cons in Hin as [[= -> ->]|Hin]; [|by eapply Hc].
    assert (index ∈ labels (at_predID df index id)) as Hlab.
    { rewrite at_predID_labels, <- Hl. apply labels_elem. by exists r. }
    apply labels_elem in Hlab as (r' & Hr').
    assert (r = r') as ->.
    { eapply (labels_functional out index); [by rewrite Hl|done|].
      by apply Hkeep. }
    rewrite (at_predID_at _ _ _ _ Hr').
    by apply (ext_findID _ _ Hext).
Qed.
End passes.

Lemma unresolved_rows_NoDup df :
  NoDup (labels df) → NoDup (labels (unresolved_rows df)).
Proof.
  intros ND. eapply sublist_NoDup; [exact ND|].
  unfold labels, unresolved_rows. apply fmap_sublist, sublist_filter.
Qed.

(** Where the final ids come from. *)
Lemma processArticle_ids (O : set_order) (user : string) (api : service)
    (data : frame annotation) (w : world) (out : frame row) (w' : world) :
  NoDup (labels data) →
  processArticle O user api data w = (Ok out, w') →
  ∃ df1 codes w1,
    phase_one user api data (with_predID_0 data) [] w = (Ok (df1, codes), w1) ∧
    ∀ i (r : row), (i, r) ∈ out →
      ∃ id1 cc,
        findID_cache w' !! (toponym r, None) = Some (CountryRes id1 cc) ∧
        if decide (id1 = 0)
        then findID_cache w' !! (toponym r, Some (makeString O codes))
             = Some (IdRes (predID r))
        else predID r = id1.
Proof.
  intros ND E. unfold processArticle in E.
  destruct data as [|a0 data0] eqn:Hdata; [discriminate|]. rewrite <- Hdata in *.
  clear Hdata a0 data0.
  unfold mbind, M_bind in E.
  destruct (phase_one user api data (with_predID_0 data) [] w)
    as [[[df1 codes]|e] w1] eqn:E1; [|discriminate].
  assert (labels (with_predID_0 data) = labels data) as Hl0.
  { by rewrite <- labels_annots, annots_with_predID_0. }
  pose proof (phase_one_labels user api _ _ _ _ _ _ _ E1) as Hl1.
  pose proof (phase_one_annots user api _ _ _ _ _ _ _ E1) as Ha1.
  rewrite annots_with_predID_0 in Ha1.
  pose proof (phase_one_cache user api _ _ _ _ _ _ _ ND
                ltac:(by rewrite Hl0) E1) as (_ & _ & Hc1).
  assert (NoDup (labels df1)) as ND1 by (by rewrite Hl1, Hl0).
  pose proof (phase_two_effect user api _ _ _ _ _ _ E) as (_ & Hl2 & Hkeep).
  pose proof (phase_two_annots user api _ _ _ _ _ _ E) as Ha2.
  pose proof (phase_two_cache user api _ _ _ _ _ _
                (unresolved_rows_NoDup df1 ND1) ND1 E) as (Hext & Hc2).
  exists df1, codes, w1. split; [done|]. intros i r Hout.
  assert (i ∈ labels df1) as Hi.
  { rewrite <- Hl2. apply labels_elem. by exists r. }
  apply labels_elem in Hi as (r1 & Hin1).
  assert (annot r = annot r1) as Hann.
  { eapply (labels_functional data i); [done| |].
    - rewrite <- Ha1, <- Ha2. by apply annots_elem.
    - rewrite <- Ha1. by apply annots_elem. }
  destruct (Hc1 i (annot r1) r1) as (cc & Hcc); [|done|].
  { rewrite <- Ha1. by apply annots_elem. }
  exists (predID r1), cc. split.
  { rewrite Hann. by apply (ext_findID _ _ Hext). }
  destruct (decide (predID r1 = 0)) as [Hz|Hnz].
  - rewrite Hann. apply (Hc2 i r1 r); [|done].
    unfold unresolved_rows. apply list_elem_of_filter. by split.
  - f_equal. eapply (labels_functional out i); [by rewrite Hl2|done|].
    apply Hkeep; [|done].
    intros Hi. apply unresolved_rows_labels in Hi as (r0 & Hin0 & Hz).
    assert (r1 = r0); [|congruence].
    by eapply (labels_functional df1 i).
Qed.

Lemma processArticle_keeps_columns_aux (O : set_order) (user : string)
    (api : service) (data : frame annotation) (w : world)
    (out : frame row) (w' : world) :
  processArticle O user api data w = (Ok out, w') → annots out = data.
Proof.
  intros E. unfold processArticle in E.
  destruct data as [|a0 data0] eqn:Hdata; [discriminate|]. rewrite <- Hdata in *.
  clear Hdata a0 data0.
  unfold mbind, M_bind in E.
  destruct (phase_one user api data (with_predID_0 data) [] w)
    as [[[df1 codes]|e] w1] eqn:E1; [|discriminate].
  apply phase_one_annots in E1. apply phase_two_annots in E.
  rewrite annots_with_predID_0 in E1. congruence.
Qed.

(** processArticle returns the rows it was given, under their labels and in
    their order, with nothing changed but the added [predID]. *)
Theorem processArticle_keeps_columns (O : set_order) (user : string)
    (api : service) (data : frame annotation) (w : world)
    (out : frame row) (w' : world) :
  processArticle O user api data w = (Ok out, w') →
  annots out = data ∧ length out = length data.
Proof.
  intros E. unfold processArticle in E.
  destruct data as [|a0 data0] eqn:Hdata; [discriminate|]. rewrite <- Hdata in *.
  clear Hdata a0 data0.
  unfold mbind, M_bind in E.
  destruct (phase_one user api data (with_predID_0 data) [] w)
    as [[[df1 codes]|e] w1] eqn:E1; [|discriminate].
  apply phase_one_annots in E1. apply phase_two_annots in E.
  rewrite annots_with_predID_0 in E1.
  assert (annots out = data) as Ha by congruence.
  split; [done|]. rewrite <- Ha. unfold annots. by rewrite length_fmap.
Qed.

Lemma processArticle_keeps_columns_witness :
  annots sample_out = sample_article ∧
  length sample_out = length sample_article.
Proof.
  apply (processArticle_keeps_columns listed_order sample_user sample_api
           sample_article empty_world sample_out
           (processArticle listed_order sample_user sample_api sample_article
              empty_world).2).
  vm_compute. reflexivity.
Defined.

(** Every final id is a stored result: the country-mode result of the row's
    text when that is not 0, and otherwise the result stored for the text
    under the article's bias, the directive [makeString] builds from the
    country codes the first pass collected. *)
Theorem processArticle_ids_from_tables (O : set_order) (user : string)
    (api : service) (data : frame annotation) (w : world)
    (out : frame row) (w' : world) :
  NoDup (labels data) →
  processArticle O user api data w = (Ok out, w') →
  ∃ df1 codes w1,
    phase_one user api data (with_predID_0 data) [] w = (Ok (df1, codes), w1) ∧
    ∀ i (r : row), (i, r) ∈ out →
      ∃ id1 cc,
        findID_cache w' !! (toponym r, None) = Some (CountryRes id1 cc) ∧
        if decide (id1 = 0)
        then findID_cache w' !! (toponym r, Some (makeString O codes))
             = Some (IdRes (predID r))
        else predID r = id1.
Proof. apply processArticle_ids. Qed.

Lemma processArticle_ids_from_tables_witness :
  let w' := (processArticle listed_order sample_user sample_api sample_article
               empty_world).2 in
  ∃ df1 codes w1,
    phase_one sample_user sample_api sample_article
      (with_predID_0 sample_article) [] empty_world = (Ok (df1, codes), w1) ∧
    ∀ i (r : row), (i, r) ∈ sample_out →
      ∃ id1 cc,
        findID_cache w' !! (toponym r, None) = Some (CountryRes id1 cc) ∧
        if decide (id1 = 0)
        then findID_cache w' !! (toponym r, Some (makeString listed_order codes))
             = Some (IdRes (predID r))
        else predID r = id1.
Proof.
  apply (processArticle_ids_from_tables listed_order sample_user sample_api
           sample_article empty_world sample_out).
  - apply (bool_decide_unpack _). vm_compute. exact I.
  - vm_compute. reflexivity.
Defined.

(** Within one article, two rows with the same text get the same id. *)
Theorem processArticle_same_text_same_id (O : set_order) (user : string)
    (api : service) (data : frame annotation) (w : world)
    (out : frame row) (w' : world) :
  NoDup (labels data) →
  processArticle O user api data w = (Ok out, w') →
  ∀ i j (r s : row), (i, r) ∈ out → (j, s) ∈ out →
    toponym r = toponym s → predID r = predID s.
Proof.
  intros ND E i j r s Hr Hs Ht.
  destruct (processArticle_ids O user api data w out w' ND E)
    as (df1 & codes & w1 & _ & H).
  destruct (H i r Hr) as (id1 & cc1 & Hc1 & H1).
  destruct (H j s Hs) as (id2 & cc2 & Hc2 & H2).
  rewrite Ht in Hc1, H1. rewrite Hc1 in Hc2. injection Hc2 as <- <-.
  destruct (decide (id1 = 0)); congruence.
Qed.

Lemma processArticle_same_text_same_id_witness :
  predID {| annot := {| articleID := "a2"; toponym := "Utrecht";
                        geoID := 2745912; isTitle := true |};
            predID := 2745912 |}
  = predID {| annot := {| articleID := "a2"; toponym := "Utrecht";
                          geoID := 2745912; isTitle := false |};
              predID := 2745912 |}.
Proof.
  apply (processArticle_same_text_same_id listed_order sample_user sample_api
           repeated_article empty_world repeated_out
           (processArticle listed_order sample_user sample_api repeated_article
              empty_world).2
           ltac:(apply (bool_decide_unpack _); vm_compute; exact I)
           ltac:(vm_compute; reflexivity) 4%nat 6%nat).
  - left.
  - right. right. left.
  - reflexivity.
Defined.

Section request_bounds.
Context (O : set_order) (user : string) (api : service).

Lemma findID_requests_bound placeName codes w :
  (length (requests (findID user api placeName codes w).2)
   ≤ length (requests w) + if truthy codes then 2 else 1)%nat.
Proof.
  destruct (truthy codes) eqn:Ht.
  - destruct (findID_effect user api placeName codes w)
      as (r & w' & E & _ & Hlen & _). by rewrite E.
  - destruct (findID_cache w !! (placeName, codes)) as [v|] eqn:Hc.
    + rewrite (findID_hit user api placeName codes v w Hc). simpl. lia.
    + rewrite (findID_miss user api placeName codes w Hc).
      pose proof (findID_body_country_requests user api placeName codes
                    (log_call (placeName, codes) w) Ht) as Hreq.
      destruct (findID_body user api (placeName, codes) _) as [[v|e] w'];
        simpl in *; rewrite Hreq; simpl; lia.
Qed.

Lemma phase_one_requests rows : ∀ df codes w,
  (length (requests (phase_one user api rows df codes w).2)
   ≤ length (requests w) + length rows)%nat.
Proof.
  induction rows as [|[index a] rows IH]; intros df codes w.
  - simpl. lia.
  - cbn [phase_one]. unfold mbind, M_bind.
    pose proof (findID_requests_bound (toponym a) None w) as Hb.
    cbn [truthy] in Hb.
    destruct (findID user api (toponym a) None w) as [[[id cc|id]|e] w0];
      cbn [snd] in Hb; cbn [length]; unfold raise; cbn [snd]; try lia.
    eapply Nat.le_trans; [apply IH|]. revert Hb.
    generalize (length (requests w0)) (length (requests w)) (length rows).
    intros; lia.
Qed.

Lemma phase_two_requests codesURL rows : ∀ df w,
  (length (requests (phase_two user api codesURL rows df w).2)
   ≤ length (requests w) + 2 * length rows)%nat.
Proof.
  induction rows as [|[index a] rows IH]; intros df w.
  - simpl. lia.
  - cbn [phase_two]. unfold mbind, M_bind.
    pose proof (findID_requests_bound (toponym a) (Some codesURL) w) as Hb.
    assert (length (requests (findID user api (toponym a) (Some codesURL) w).2)
            ≤ length (requests w) + 2)%nat as Hb'.
    { destruct (truthy (Some codesURL)); lia. }
    clear Hb.
    destruct (findID user api (toponym a) (Some codesURL) w)
      as [[[id cc|id]|e] w0]; cbn [snd] in Hb'; cbn [length]; unfold raise;
      cbn [snd]; try lia.
    eapply Nat.le_trans; [apply IH|]. revert Hb'.
    generalize (length (requests w0)) (length (requests w)) (length rows).
    intros; lia.
Qed.

Lemma processArticle_requests_aux (data : frame annotation) (w : world) :
  (length (requests (processArticle O user api data w).2)
   ≤ length (requests w) + 3 * length data)%nat.
Proof.
  unfold processArticle.
  destruct data as [|a0 data0] eqn:Hdata; [simpl; lia|]. rewrite <- Hdata.
  clear Hdata a0 data0. unfold mbind, M_bind.
  pose proof (phase_one_requests data (with_predID_0 data) [] w) as H1.
  destruct (phase_one user api data (with_predID_0 data) [] w)
    as [[[df1 codes]|e] w1] eqn:E1; simpl in H1; [|simpl; lia].
  pose proof (phase_two_requests (makeString O codes) (unresolved_rows df1)
                df1 w1) as H2.
  pose proof (phase_one_labels user api _ _ _ _ _ _ _ E1) as Hl.
  assert (length df1 = length data) as Hlen.
  { apply (f_equal length) in Hl. unfold labels, with_predID_0 in Hl.
    by rewrite !length_fmap in Hl. }
  assert (length (unresolved_rows df1) ≤ length data)%nat as Hf.
  { rewrite <- Hlen. apply length_filter. }
  eapply Nat.le_trans; [apply H2|]. revert H1 Hf.
  generalize (length (requests w1)) (length (requests w))
             (length (unresolved_rows df1)) (length data).
  intros; lia.
Qed.
End request_bounds.

(** However it ends, [processArticle] sends at most three requests for each
    row: one in the first pass, and in the second at most the biased one
    and that of the fall-back. *)
Theorem processArticle_requests_bound (O : set_order) (user : string)
    (api : service) (data : frame annotation) (w : world) :
  (length (requests (processArticle O user api data w).2)
   ≤ length (requests w) + 3 * length data)%nat.
Proof. apply processArticle_requests_aux. Qed.

(** * Further properties of the scoring routine *)

(** agreement reports metrics exactly when some row has equal expected and
    predicted id; otherwise it raises [ZeroDivisionError]. *)
Theorem agreement_returns_iff (df : list row) :
  ((∃ m, agreement df = Ok m) ↔ 0 < count_rows is_correct df) ∧
  (agreement df = Raise ZeroDivisionError ↔ count_rows is_correct df = 0).
Proof.
  pose proof (count_rows_nonneg is_correct df) as Hn.
  destruct (decide (count_rows is_correct df = 0)) as [Hz|Hz].
  - pose proof (agreement_zero_correct_raises df Hz) as E. split; split.
    + intros [m Hm]. congruence.
    + lia.
    + done.
    + done.
  - assert (0 < count_rows is_correct df) as Hpos by lia.
    pose proof (agreement_of_correct df Hpos) as E. simpl in E. split; split.
    + done.
    + intros _. by eexists.
    + rewrite E. discriminate.
    + done.
Qed.

Lemma agreement_order_free_aux (df df' : list row) :
  df ≡ₚ df' → agreement df = agreement df'.
Proof.
  intros Hp. unfold agreement. rewrite !tally_counts.
  unfold count_rows. by rewrite Hp.
Qed.

(** The score does not depend on the order of the rows. *)
Theorem agreement_order_free (df df' : list row) :
  df ≡ₚ df' → agreement df = agreement df'.
Proof.
  intros Hp. unfold agreement. rewrite !tally_counts.
  unfold count_rows. by rewrite Hp.
Qed.

Lemma agreement_order_free_witness :
  agreement [mk_row 5 5; mk_row 7 0] = agreement [mk_row 7 0; mk_row 5 5].
Proof.
  apply (agreement_order_free [mk_row 5 5; mk_row 7 0]
           [mk_row 7 0; mk_row 5 5]).
  apply perm_swap.
Defined.

Lemma ratio_le (a b c : Z) :
  0 < b → 0 ≤ a → b ≤ c →
  (inject_Z a / inject_Z c <= inject_Z a / inject_Z b)%Q.
Proof.
  intros Hb Ha Hbc.
  destruct b as [|b|b]; try lia. destruct c as [|c|c]; try lia.
  unfold Qle, Qdiv, Qmult, Qinv, inject_Z. simpl. nia.
Qed.

Lemma ratio_le_1 (a b : Z) :
  0 < b → a ≤ b → (inject_Z a / inject_Z b <= 1)%Q.
Proof.
  intros Hb Hab. destruct b as [|b|b]; try lia.
  unfold Qle, Qdiv, Qmult, Qinv, inject_Z. simpl. lia.
Qed.

(** Whenever agreement reports, its total is the number of rows, and
    0 < recall <= precision <= 1: no more rows are guessed than there are,
    and no more are correct than were guessed. (Each of the two is one
    division of row counts; rounding it to binary64 keeps these relations.) *)
Theorem agreement_metric_bounds (df : list row) (m : metrics) :
  agreement df = Ok m →
  m_total m = Z.of_nat (length df) ∧
  (0 < m_recall m)%Q ∧ (m_recall m <= m_precision m)%Q ∧
  (m_precision m <= 1)%Q.
Proof.
  intros E.
  assert (0 < count_rows is_correct df) as Hc.
  { pose proof (count_rows_nonneg is_correct df).
    destruct (decide (count_rows is_correct df = 0)) as [Hz|]; [|lia].
    rewrite (agreement_zero_correct_raises df Hz) in E. discriminate. }
  pose proof (agreement_of_correct df Hc) as E'. cbv zeta in E'.
  rewrite E in E'. injection E' as ->. cbn [m_total m_recall m_f1 m_precision].
  pose proof (correct_missed_le_total df) as Hle.
  pose proof (count_rows_nonneg is_missed df) as Hm.
  set (c := count_rows is_correct df) in *.
  set (t := Z.of_nat (length df)) in *.
  set (g := t - count_rows is_missed df).
  assert (0 < g ∧ g ≤ t ∧ c ≤ g) as (Hg & Hgt & Hcg) by (unfold g; lia).
  pose proof (ratio_pos c t Hc ltac:(lia)) as Hr.
  pose proof (ratio_le c g t Hg ltac:(lia) Hgt) as Hrp.
  split_and!; try done. by apply ratio_le_1.
Qed.

Lemma agreement_metric_bounds_witness :
  ∃ m, agreement ten_rows = Ok m ∧
       m_total m = Z.of_nat (length ten_rows) ∧
       (0 < m_recall m)%Q ∧ (m_recall m <= m_precision m)%Q ∧
       (m_precision m <= 1)%Q.
Proof.
  eexists. split; [reflexivity|].
  apply (agreement_metric_bounds ten_rows). reflexivity.
Defined.

(** When every row has equal expected and predicted id, rows with both 0
    included, precision, recall and f1 are all 1. *)
Theorem agreement_all_correct (df : list row) :
  df ≠ [] → (∀ r : row, r ∈ df → geoID r = predID r) →
  ∃ m, agreement df = Ok m ∧
       (m_precision m == 1)%Q ∧ (m_recall m == 1)%Q ∧ (m_f1 m == 1)%Q.
Proof.
  intros Hne Hall.
  assert (count_rows is_correct df = Z.of_nat (length df)
          ∧ count_rows is_missed df = 0) as [Hc Hm].
  { clear Hne. induction df as [|r df IH]; [done|].
    rewrite !count_rows_cons. unfold is_missed at 1.
    assert (is_correct r = true) as ->.
    { unfold is_correct. apply Z.eqb_eq, Hall. left. }
    destruct IH as [-> ->]; [intros x Hx; apply Hall; by right|].
    simpl length. split; simpl; lia. }
  assert (0 < Z.of_nat (length df)) as Hpos.
  { destruct df; [done|]. simpl length. lia. }
  pose proof (agreement_of_correct df ltac:(lia)) as E. cbv zeta in E.
  rewrite Hc, Hm, Z.sub_0_r in E.
  eexists. split; [exact E|]. cbn [m_precision m_recall m_f1].
  destruct (Z.of_nat (length df)) as [|n|n]; try lia.
  unfold Qeq, Qdiv, Qmult, Qplus, Qinv, inject_Z. simpl. split_and!; lia.
Qed.

Lemma agreement_all_correct_witness :
  ∃ m, agreement [mk_row 5 5; mk_row 0 0] = Ok m ∧
       (m_precision m == 1)%Q ∧ (m_recall m == 1)%Q ∧ (m_f1 m == 1)%Q.
Proof.
  apply (agreement_all_correct [mk_row 5 5; mk_row 0 0]).
  - discriminate.
  - intros r Hr.
    repeat (apply elem_of_cons in Hr as [->|Hr]; [reflexivity|]).
    inversion Hr.
Defined.

(** * Memoisation and a service that does not change *)

Section transparency.
Context (user : string) (api : service).
Hypothesis api_stationary : stationary api.

Lemma sound_empty : sound user api empty_world.
Proof. split; intros; simpl in *; by rewrite lookup_empty in *. Qed.

Lemma sound_same_tables w w' :
  findID_cache w' = findID_cache w → baseline_cache w' = baseline_cache w →
  sound user api w → sound user api w'.
Proof. intros Hf Hb [H1 H2]. split; intros; [apply H1|apply H2]; congruence. Qed.

Lemma findID_baseline_body_result placeName w w0 :
  (findID_baseline_body user api placeName w).1
  = (findID_baseline_body user api placeName w0).1.
Proof.
  unfold findID_baseline_body, requests_get, lift, mbind, M_bind, mret, M_ret.
  cbv beta iota.
  rewrite (api_stationary (requests w) (requests w0)).
  destruct (api (requests w0) _) as [data|e]; [|done].
  repeat (case_match; simplify_eq/=; try done).
Qed.

Lemma findID_baseline_fresh placeName w :
  baseline_cache w = ∅ →
  (findID_baseline user api placeName w).1
  = (findID_baseline_body user api placeName w).1.
Proof.
  intros Hb. unfold findID_baseline, lru_baseline.
  rewrite Hb, lookup_empty.
  by destruct (findID_baseline_body user api placeName w) as [[v|e] w'].
Qed.

Lemma findID_baseline_transparent placeName w :
  sound user api w →
  (findID_baseline user api placeName w).1
  = (findID_baseline user api placeName empty_world).1 ∧
  sound user api (findID_baseline user api placeName w).2.
Proof.
  intros Hs.
  destruct (baseline_cache w !! placeName) as [v|] eqn:Hc.
  - rewrite (findID_baseline_hit user api placeName v w Hc). simpl.
    split; [|done]. symmetry. by apply Hs.
  - rewrite (findID_baseline_miss user api placeName w Hc).
    rewrite (findID_baseline_fresh placeName empty_world) by done.
    pose proof (findID_baseline_body_result placeName w empty_world) as Hr.
    pose proof (findID_baseline_body_effect user api placeName w) as He.
    destruct (findID_baseline_body user api placeName w) as [[v|e] w1];
      simpl in Hr, He; subst w1; simpl; (split; [done|]).
    + destruct Hs as [H1 H2]. split; simpl; [|done].
      intros p v'. destruct (decide (placeName = p)) as [<-|Hne].
      * rewrite lookup_insert_eq. intros [= <-].
        by rewrite (findID_baseline_fresh placeName empty_world).
      * rewrite lookup_insert_ne by done. apply H1.
    + by apply (sound_same_tables w).
Qed.

Lemma findID_fresh placeName codes :
  (findID user api placeName codes empty_world).1
  = (findID_body user api (placeName, codes)
       (log_call (placeName, codes) empty_world)).1.
Proof.
  rewrite (findID_miss user api placeName codes empty_world) by done.
  by destruct (findID_body user api _ _) as [[v|e] w'].
Qed.

(** The body of [findID] returns the same on any two sound worlds, and
    leaves a sound world. *)
Lemma findID_body_transparent k w w0 :
  sound user api w → sound user api w0 →
  (findID_body user api k w).1 = (findID_body user api k w0).1 ∧
  (findID_cache (findID_body user api k w).2 = findID_cache w ∧
   ∀ p v, baseline_cache (findID_body user api k w).2 !! p = Some v →
          (findID_baseline user api p empty_world).1 = Ok v).
Proof.
  intros Hs Hs0. destruct k as [placeName codes].
  unfold findID_body, requests_get, lift, mbind, M_bind, mret, M_ret.
  destruct (truthy codes); cbv beta iota;
    rewrite (api_stationary (requests w) (requests w0)).
  - set (b := biased_URL user placeName (default "" codes)).
    destruct (api (requests w0) b) as [data|e]; [|by split; [|split; [|apply Hs]]].
    destruct (len_data data =? 0)%nat; [by split; [|split; [|apply Hs]]|].
    destruct (get_geonames data) as [[|firstOption rest]|e];
      [| |by split; [|split; [|apply Hs]]].
    + destruct (findID_baseline_transparent placeName (log_request b w))
        as [E1 S1]; [by apply (sound_same_tables w)|].
      destruct (findID_baseline_transparent placeName (log_request b w0))
        as [E2 _]; [by apply (sound_same_tables w0)|].
      destruct (findID_baseline_effect user api placeName (log_request b w))
        as (r & w1 & E & _ & Hf & _).
      rewrite E in *.
      destruct (findID_baseline user api placeName (log_request b w0))
        as [r0 w2]. simpl in E1, E2, S1.
      assert (r = r0) as <- by congruence.
      destruct r as [v|e]; simpl; (split; [done|]); (split; [done|apply S1]).
    + destruct (get_geonameId firstOption); simpl;
        (split; [done|]); (split; [done|apply Hs]).
  - destruct (api (requests w0) _) as [data|e]; [|by split; [|split; [|apply Hs]]].
    repeat (case_match; simplify_eq/=; try done);
      (split; [done|]); (split; [done|apply Hs]).
Qed.

Lemma findID_transparent placeName codes w :
  sound user api w →
  (findID user api placeName codes w).1
  = (findID user api placeName codes empty_world).1 ∧
  sound user api (findID user api placeName codes w).2.
Proof.
  intros Hs.
  destruct (findID_cache w !! (placeName, codes)) as [v|] eqn:Hc.
  - rewrite (findID_hit user api placeName codes v w Hc). simpl. split.
    + symmetry. by apply Hs.
    + by apply (sound_same_tables w).
  - rewrite (findID_miss user api placeName codes w Hc), findID_fresh.
    destruct (findID_body_transparent (placeName, codes)
                (log_call (placeName, codes) w)
                (log_call (placeName, codes) empty_world))
      as (Hr & Hf & Hb);
      [by apply (sound_same_tables w)|by apply (sound_same_tables empty_world), sound_empty|].
    destruct (findID_body user api (placeName, codes)
                (log_call (placeName, codes) w)) as [[v|e] w1];
      simpl in Hr, Hf, Hb |- *; (split; [done|]).
    + split; simpl; [done|].
      intros p c v'. rewrite Hf. simpl.
      destruct (decide ((placeName, codes) = (p, c))) as [[= <- <-]|Hne].
      * rewrite lookup_insert_eq. intros [= <-]. by rewrite findID_fresh.
      * rewrite lookup_insert_ne by done. apply Hs.
    + split; [done|]. intros p c v'. rewrite Hf. simpl. apply Hs.
Qed.

Lemma steps_sound w w' :
  steps user api w w' → sound user api w → sound user api w'.
Proof.
  induction 1 as [w|w placeName codes w' _ IH|w placeName w' _ IH]; intros Hs.
  - done.
  - apply IH. by apply findID_transparent.
  - apply IH. by apply findID_baseline_transparent.
Qed.
End transparency.

Section transparent_passes.
Context (O : set_order) (user : string) (api : service).
Hypothesis api_stationary : stationary api.

Lemma phase_one_transparent rows : ∀ df codes w w0,
  sound user api w → sound user api w0 →
  (phase_one user api rows df codes w).1
  = (phase_one user api rows df codes w0).1 ∧
  sound user api (phase_one user api rows df codes w).2.
Proof.
  induction rows as [|[index a] rows IH]; intros df codes w w0 Hs Hs0.
  - done.
  - cbn [phase_one]. unfold mbind, M_bind.
    destruct (findID_transparent user api api_stationary (toponym a) None w Hs)
      as [E S].
    destruct (findID_transparent user api api_stationary (toponym a) None w0 Hs0)
      as [E0 S0].
    destruct (findID user api (toponym a) None w) as [r w1].
    destruct (findID user api (toponym a) None w0) as [r0 w2].
    simpl in E, E0, S, S0. assert (r = r0) as <- by congruence.
    destruct r as [[id cc|id]|e]; [by apply IH|done|done].
Qed.

Lemma phase_two_transparent codesURL rows : ∀ df w w0,
  sound user api w → sound user api w0 →
  (phase_two user api codesURL rows df w).1
  = (phase_two user api codesURL rows df w0).1 ∧
  sound user api (phase_two user api codesURL rows df w).2.
Proof.
  induction rows as [|[index a] rows IH]; intros df w w0 Hs Hs0.
  - done.
  - cbn [phase_two]. unfold mbind, M_bind.
    destruct (findID_transparent user api api_stationary (toponym a)
                (Some codesURL) w Hs) as [E S].
    destruct (findID_transparent user api api_stationary (toponym a)
                (Some codesURL) w0 Hs0) as [E0 S0].
    destruct (findID user api (toponym a) (Some codesURL) w) as [r w1].
    destruct (findID user api (toponym a) (Some codesURL) w0) as [r0 w2].
    simpl in E, E0, S, S0. assert (r = r0) as <- by congruence.
    destruct r as [[id cc|id]|e]; [done|by apply IH|done].
Qed.

Lemma processArticle_sound data w w0 :
  sound user api w → sound user api w0 →
  (processArticle O user api data w).1 = (processArticle O user api data w0).1 ∧
  sound user api (processArticle O user api data w).2.
Proof.
  intros Hs Hs0. unfold processArticle.
  destruct data as [|a0 data0] eqn:Hdata; [done|]. rewrite <- Hdata.
  clear Hdata a0 data0. unfold mbind, M_bind.
  destruct (phase_one_transparent data (with_predID_0 data) [] w w0 Hs Hs0)
    as [E S].
  destruct (phase_one_transparent data (with_predID_0 data) [] w0 w Hs0 Hs)
    as [_ S0].
  destruct (phase_one user api data (with_predID_0 data) [] w) as [r w1].
  destruct (phase_one user api data (with_predID_0 data) [] w0) as [r0 w2].
  simpl in E, S, S0. subst r0.
  destruct r as [[df1 codes]|e]; [|done].
  by apply phase_two_transparent.
Qed.
End transparent_passes.

(** With a service whose answers depend on the URL only, the tables do not
    change what a call returns: at any point of a run, [findID] and
    [findID_baseline] return what they return on empty tables at its
    start. *)
Theorem memoisation_is_transparent (user : string) (api : service) (w : world) :
  stationary api → steps user api empty_world w →
  (∀ placeName codes,
     (findID user api placeName codes w).1
     = (findID user api placeName codes empty_world).1) ∧
  (∀ placeName,
     (findID_baseline user api placeName w).1
     = (findID_baseline user api placeName empty_world).1).
Proof.
  intros Hst Hsteps.
  pose proof (steps_sound user api Hst _ _ Hsteps (sound_empty user api)) as Hs.
  split.
  - intros placeName codes. by apply findID_transparent.
  - intros placeName. by apply findID_baseline_transparent.
Qed.

Lemma atlas_api_stationary : stationary atlas_api.
Proof. by intros h1 h2 URL. Qed.

Lemma memoisation_is_transparent_witness :
  let w := (findID sample_user atlas_api "Utrecht" (Some "&countryBias=NL")
              empty_world).2 in
  (∀ placeName codes,
     (findID sample_user atlas_api placeName codes w).1
     = (findID sample_user atlas_api placeName codes empty_world).1) ∧
  (∀ placeName,
     (findID_baseline sample_user atlas_api placeName w).1
     = (findID_baseline sample_user atlas_api placeName empty_world).1).
Proof.
  apply (memoisation_is_transparent sample_user atlas_api).
  - exact atlas_api_stationary.
  - apply (steps_findID _ _ empty_world "Utrecht" (Some "&countryBias=NL")).
    apply steps_refl.
Defined.

(** With such a service, the ids [processArticle] gives an article do not
    depend on what was resolved before it in the run. *)
Theorem processArticle_independent_of_history (O : set_order) (user : string)
    (api : service) (data : frame annotation) (w : world) :
  stationary api → steps user api empty_world w →
  (processArticle O user api data w).1
  = (processArticle O user api data empty_world).1.
Proof.
  intros Hst Hsteps.
  pose proof (steps_sound user api Hst _ _ Hsteps (sound_empty user api)) as Hs.
  by apply processArticle_sound; [|exact Hs|apply sound_empty].
Qed.

Lemma processArticle_independent_of_history_witness :
  let w := (findID sample_user atlas_api "Utrecht" (Some "&countryBias=FR")
              empty_world).2 in
  (processArticle listed_order sample_user atlas_api sample_article w).1
  = (processArticle listed_order sample_user atlas_api sample_article
       empty_world).1.
Proof.
  apply (processArticle_independent_of_history listed_order sample_user
           atlas_api sample_article).
  - exact atlas_api_stationary.
  - apply (steps_findID _ _ empty_world "Utrecht" (Some "&countryBias=FR")).
    apply steps_refl.
Defined.

Lemma annots_app df1 df2 : annots (df1 ++ df2) = annots df1 ++ annots df2.
Proof. unfold annots. apply fmap_app. Qed.

(** The groups of the distinct keys, put together, are the rows of the
    dataframe in another order. *)
Lemma groups_permutation (keys : list string) : ∀ df : frame annotation,
  NoDup keys → (∀ ia, ia ∈ df → articleID ia.2 ∈ keys) →
  concat (group df <$> keys) ≡ₚ df.
Proof.
  induction keys as [|key keys IH]; intros df ND Hall.
  - destruct df as [|ia df]; [done|].
    specialize (Hall ia ltac:(left)). inversion Hall.
  - apply NoDup_cons in ND as [Hkey ND]. rewrite fmap_cons. simpl.
    set (rest := filter (λ ia : nat * annotation, ¬ articleID ia.2 = key) df).
    assert (group df <$> keys = group rest <$> keys) as ->.
    { apply list_fmap_ext. intros _ k Hk%list_elem_of_lookup_2.
      unfold group, rest. symmetry. apply list_filter_filter_l.
      intros ia E1 E2. apply Hkey. congruence. }
    rewrite (IH rest ND).
    + apply filter_app_complement.
    + intros ia Hin. apply list_elem_of_filter in Hin as [Hne Hin].
      specialize (Hall ia Hin). apply elem_of_cons in Hall as [?|?]; done.
Qed.

Section readTSV_facts.
Context (O K : set_order) (user : string) (api : service).

Lemma apply_baseline_effect rows : ∀ w out w',
  apply_baseline user api rows w = (Ok out, w') →
  annots out = rows ∧ calls w' = calls w ∧ findID_cache w' = findID_cache w ∧
  (length (requests w') ≤ length (requests w) + length rows)%nat ∧
  extends w w' ∧
  ∀ i (r : row), (i, r) ∈ out →
    baseline_cache w' !! toponym r = Some (predID r).
Proof.
  induction rows as [|[index a] rows IH]; intros w out w' E.
  - injection E as <- <-. split_and!; try done; [simpl; lia|apply extends_refl|].
    intros i r Hin. inversion Hin.
  - cbn [apply_baseline] in E. unfold mbind, M_bind in E.
    destruct (findID_baseline_effect user api (toponym a) w)
      as (r0 & w0 & E0 & Hc0 & Hf0 & Hl0 & Hx0 & Hst).
    rewrite E0 in E. destruct r0 as [id|e]; [|discriminate].
    destruct (apply_baseline user api rows w0) as [[out'|e] w1] eqn:E1;
      [|discriminate].
    injection E as <- <-.
    apply IH in E1 as (Ha & Hc & Hf & Hl & Hx & Hids).
    split_and!.
    + unfold annots in *. rewrite fmap_cons. simpl. by rewrite Ha.
    + congruence.
    + congruence.
    + simpl length. revert Hl0 Hl.
      generalize (length (requests w0)) (length (requests w))
                 (length (requests w1)) (length rows).
      intros; lia.
    + by eapply extends_trans.
    + intros i r Hin. apply elem_of_cons in Hin as [[= -> ->]|Hin].
      * simpl. apply (ext_baseline _ _ Hx). by apply Hst.
      * by apply (Hids i).
Qed.

Lemma apply_groups_effect keys df : ∀ w out w',
  apply_groups O user api keys df w = (Ok out, w') →
  annots out = concat (group df <$> keys) ∧
  (length (requests w')
   ≤ length (requests w) + 3 * length (concat (group df <$> keys)))%nat.
Proof.
  induction keys as [|key keys IH]; intros w out w' E.
  - injection E as <- <-. split; [done|simpl; lia].
  - cbn [apply_groups] in E. unfold mbind, M_bind in E.
    pose proof (processArticle_requests_aux O user api (group df key) w) as Hb.
    destruct (processArticle O user api (group df key) w) as [[g|e] w0] eqn:E0;
      [|discriminate].
    apply processArticle_keeps_columns_aux in E0 as Hg.
    destruct (apply_groups O user api keys df w0) as [[gs|e] w1] eqn:E1;
      [|discriminate].
    injection E as <- <-. apply IH in E1 as [Ha Hl].
    rewrite fmap_cons. simpl concat. split.
    + by rewrite annots_app, Hg, Ha.
    + rewrite length_app. simpl in Hb. revert Hb Hl.
      generalize (length (requests w0)) (length (requests w))
                 (length (requests w1)) (length (group df key))
                 (length (concat (group df <$> keys))).
      intros; lia.
Qed.
End readTSV_facts.

Lemma concat_Permutation_proper {A} (l1 l2 : list (list A)) :
  l1 ≡ₚ l2 → concat l1 ≡ₚ concat l2.
Proof.
  induction 1 as [|x l1 l2 _ IH|x y l|l1 l2 l3 _ IH1 _ IH2]; simpl.
  - done.
  - by rewrite IH.
  - by rewrite !app_assoc, (Permutation_app_comm y x).
  - by etrans.
Qed.

Section readTSV_transparent.
Context (O : set_order) (user : string) (api : service).
Hypothesis api_stationary : stationary api.

Lemma apply_groups_alone keys df : ∀ w out w',
  sound user api w →
  apply_groups O user api keys df w = (Ok out, w') →
  out = concat (article_alone O user api df <$> keys).
Proof.
  induction keys as [|key keys IH]; intros w out w' Hs E.
  - by injection E as <- _.
  - cbn [apply_groups] in E. unfold mbind, M_bind in E.
    destruct (processArticle_sound O user api api_stationary (group df key)
                w empty_world Hs (sound_empty user api)) as [Hr Hs0].
    destruct (processArticle O user api (group df key) w) as [[g|e] w0];
      [|discriminate].
    simpl in Hr, Hs0.
    destruct (apply_groups O user api keys df w0) as [[gs|e] w1] eqn:E1;
      [|discriminate].
    injection E as <- _. rewrite fmap_cons. simpl.
    unfold article_alone at 1. rewrite <- Hr. f_equal. by eapply IH.
Qed.
End readTSV_transparent.

(** Baseline mode. When it returns, the rows are those read, each with the
    id stored for its text by [findID_baseline]; so equal texts get equal
    ids throughout the file. It sends at most one request per row, and
    never calls [findID] nor touches its table. *)
Theorem readTSV_baseline_mode (O K : set_order) (user : string) (api : service)
    (df : frame annotation) (w : world) (out : frame row) (w' : world) :
  readTSV O user api K df true w = (Ok out, w') →
  annots out = df ∧
  calls w' = calls w ∧ findID_cache w' = findID_cache w ∧
  (length (requests w') ≤ length (requests w) + length df)%nat ∧
  (∀ i (r : row), (i, r) ∈ out →
     baseline_cache w' !! toponym r = Some (predID r)) ∧
  (∀ i j (r s : row), (i, r) ∈ out → (j, s) ∈ out →
     toponym r = toponym s → predID r = predID s).
Proof.
  intros E. cbn [readTSV] in E.
  apply apply_baseline_effect in E as (Ha & Hc & Hf & Hl & _ & Hids).
  split_and!; try done.
  intros i j r s Hr Hs Ht.
  apply Hids in Hr, Hs. rewrite Ht in Hr. congruence.
Qed.

Lemma readTSV_baseline_mode_witness :
  let run := readTSV listed_order sample_user sample_api listed_order
               repeated_article true empty_world in
  let out := [(4%nat, {| annot := {| articleID := "a2"; toponym := "Utrecht";
                                     geoID := 2745912; isTitle := true |};
                         predID := 2745912 |});
              (5%nat, {| annot := {| articleID := "a2"; toponym := "Nederland";
                                     geoID := 2750405; isTitle := false |};
                         predID := 0 |});
              (6%nat, {| annot := {| articleID := "a2"; toponym := "Utrecht";
                                     geoID := 2745912; isTitle := false |};
                         predID := 2745912 |})] in
  annots out = repeated_article ∧
  calls run.2 = calls empty_world ∧
  findID_cache run.2 = findID_cache empty_world ∧
  (length (requests run.2)
   ≤ length (requests empty_world) + length repeated_article)%nat ∧
  (∀ i (r : row), (i, r) ∈ out →
     baseline_cache run.2 !! toponym r = Some (predID r)) ∧
  (∀ i j (r s : row), (i, r) ∈ out → (j, s) ∈ out →
     toponym r = toponym s → predID r = predID s).
Proof.
  apply (readTSV_baseline_mode listed_order listed_order sample_user sample_api
           repeated_article empty_world).
  vm_compute. reflexivity.
Defined.

(** Normal mode. When it returns, the rows are those read, in some order,
    each with an id; and at most three requests were sent per row. *)
Theorem readTSV_normal_mode (O K : set_order) (user : string) (api : service)
    (df : frame annotation) (w : world) (out : frame row) (w' : world) :
  readTSV O user api K df false w = (Ok out, w') →
  annots out ≡ₚ df ∧
  (length (requests w') ≤ length (requests w) + 3 * length df)%nat.
Proof.
  intros E. cbn [readTSV] in E.
  apply apply_groups_effect in E as [Ha Hl].
  assert (concat (group df <$> set_iter K ((λ ia, articleID ia.2) <$> df))
          ≡ₚ df) as Hp.
  { apply groups_permutation; [apply set_iter_NoDup|].
    intros ia Hin. apply set_iter_elem, list_elem_of_fmap. by exists ia. }
  split; [by rewrite Ha|]. by rewrite Hp in Hl.
Qed.

Lemma readTSV_normal_mode_witness :
  let run := readTSV listed_order sample_user sample_api listed_order
               sample_file false empty_world in
  ∃ out, run.1 = Ok out ∧ annots out ≡ₚ sample_file ∧
    (length (requests run.2)
     ≤ length (requests empty_world) + 3 * length sample_file)%nat.
Proof.
  eexists. split; [vm_compute; reflexivity|].
  apply (readTSV_normal_mode listed_order listed_order sample_user sample_api
           sample_file empty_world).
  vm_compute. reflexivity.
Defined.

(** With a service whose answers depend on the URL only, normal mode
    resolves every article as if it were alone: the rows returned are those
    [processArticle] gives each article on empty tables. So neither the
    order in which the articles are visited nor what was resolved before
    changes the rows, up to their order, or the score. *)
Theorem readTSV_articles_independent (O K1 K2 : set_order) (user : string)
    (api : service) (df : frame annotation) (w1 w2 : world)
    (out1 out2 : frame row) (w1' w2' : world) :
  stationary api →
  steps user api empty_world w1 → steps user api empty_world w2 →
  readTSV O user api K1 df false w1 = (Ok out1, w1') →
  readTSV O user api K2 df false w2 = (Ok out2, w2') →
  out1 ≡ₚ concat (article_alone O user api df
                    <$> set_iter K1 ((λ ia, articleID ia.2) <$> df)) ∧
  out1 ≡ₚ out2 ∧
  agreement out1.*2 = agreement out2.*2.
Proof.
  intros Hst S1 S2 E1 E2. cbn [readTSV] in E1, E2.
  pose proof (steps_sound user api Hst _ _ S1 (sound_empty user api)) as Hs1.
  pose proof (steps_sound user api Hst _ _ S2 (sound_empty user api)) as Hs2.
  apply (apply_groups_alone O user api Hst) in E1; [|done].
  apply (apply_groups_alone O user api Hst) in E2; [|done].
  assert (out1 ≡ₚ out2) as Hp.
  { rewrite E1, E2. apply concat_Permutation_proper, fmap_Permutation.
    apply NoDup_Permutation; [apply set_iter_NoDup..|].
    intros x. by rewrite !set_iter_elem. }
  split_and!; [by rewrite E1|done|].
  apply agreement_order_free_aux. by apply fmap_Permutation.
Qed.

Lemma readTSV_articles_independent_witness :
  let w2 := (findID sample_user atlas_api "Utrecht" (Some "&countryBias=FR")
               empty_world).2 in
  let run1 := readTSV listed_order sample_user atlas_api listed_order
                sample_file false empty_world in
  let run2 := readTSV listed_order sample_user atlas_api reversed_order
                sample_file false w2 in
  ∃ out1 out2, run1.1 = Ok out1 ∧ run2.1 = Ok out2 ∧
    out1 ≡ₚ concat (article_alone listed_order sample_user atlas_api sample_file
                      <$> set_iter listed_order
                            ((λ ia, articleID ia.2) <$> sample_file)) ∧
    out1 ≡ₚ out2 ∧
    agreement out1.*2 = agreement out2.*2.
Proof.
  eexists _, _. split; [vm_compute; reflexivity|].
  split; [vm_compute; reflexivity|].
  eapply (readTSV_articles_independent listed_order listed_order reversed_order
            sample_user atlas_api sample_file empty_world _).
  - exact atlas_api_stationary.
  - apply steps_refl.
  - apply (steps_findID _ _ empty_world "Utrecht" (Some "&countryBias=FR")).
    apply steps_refl.
  - vm_compute. reflexivity.
  - vm_compute. reflexivity.
Defined.

(** * A service that finds nothing *)

Lemma at_predID_zero (df : frame row) index :
  (∀ ir, ir ∈ df → predID ir.2 = 0) → at_predID df index 0 = df.
Proof.
  intros Hz. unfold at_predID. rewrite <- (list_fmap_id df) at 2.
  apply list_fmap_ext. intros k [i r] Hk%list_elem_of_lookup_2. simpl.
  destruct (i =? index)%nat; [|done].
  specialize (Hz _ Hk). simpl in Hz. destruct r as [a p]. simpl in *.
  by subst p.
Qed.

Lemma with_predID_0_zero data ir : ir ∈ with_predID_0 data → predID ir.2 = 0.
Proof.
  unfold with_predID_0. intros Hin.
  by apply list_elem_of_fmap in Hin as (ia & -> & _).
Qed.

Section nothing_found.
Context (O : set_order) (user : string) (api : service).
Hypothesis api_empty : finds_nothing api.

Lemma findID_baseline_nothing placeName w :
  zero_tables w →
  ∃ w', findID_baseline user api placeName w = (Ok 0, w') ∧ zero_tables w'.
Proof.
  intros [Hb Hf]. unfold findID_baseline, lru_baseline.
  destruct (baseline_cache w !! placeName) as [v|] eqn:Hc.
  - rewrite (Hb _ _ Hc). by eexists.
  - unfold findID_baseline_body, requests_get, lift, mbind, M_bind, mret, M_ret.
    destruct (api_empty (requests w) (baseline_URL user placeName)) as [n ->].
    destruct (len_data _ =? 0)%nat; cbn [get_geonames geonames];
      eexists; (split; [done|]); (split; simpl; [|done]);
      intros p v; (destruct (decide (placeName = p)) as [<-|Hne];
        [rewrite lookup_insert_eq; by intros [= <-]
        |rewrite lookup_insert_ne by done; apply Hb]).
Qed.

Lemma findID_nothing placeName codes w :
  zero_tables w →
  ∃ w', findID user api placeName codes w = (Ok (not_found codes), w') ∧
        zero_tables w'.
Proof.
  intros Hz.
  destruct (findID_cache w !! (placeName, codes)) as [v|] eqn:Hc.
  - rewrite (findID_hit user api placeName codes v w Hc).
    rewrite (proj2 Hz _ _ _ Hc). by eexists.
  - rewrite (findID_miss user api placeName codes w Hc).
    assert (∃ w1, findID_body user api (placeName, codes)
                    (log_call (placeName, codes) w)
                  = (Ok (not_found codes), w1) ∧
                  findID_cache w1 = findID_cache w ∧
                  ∀ p v, baseline_cache w1 !! p = Some v → v = 0)
      as (w1 & -> & Hf1 & Hb1).
    { unfold findID_body, requests_get, lift, mbind, M_bind, mret, M_ret,
        not_found.
      destruct (truthy codes); cbv beta iota;
        change (requests (log_call (placeName, codes) w)) with (requests w).
      - destruct (api_empty (requests w)
                    (biased_URL user placeName (default "" codes))) as [n ->].
        destruct (len_data _ =? 0)%nat; cbn [get_geonames geonames].
        + eexists. split; [done|]. split; [done|apply Hz].
        + destruct (findID_baseline_nothing placeName
                      (log_request (biased_URL user placeName (default "" codes))
                         (log_call (placeName, codes) w)))
            as (w2 & E2 & Hz2); [done|].
          destruct (findID_baseline_effect user api placeName
                      (log_request (biased_URL user placeName (default "" codes))
                         (log_call (placeName, codes) w)))
            as (r & w3 & E3 & _ & Hf3 & _).
          rewrite E2 in E3. injection E3 as <- <-. rewrite E2.
          eexists. split; [done|]. split; [done|apply Hz2].
      - destruct (api_empty (requests w) (country_URL user placeName)) as [n ->].
        destruct (len_data _ =? 0)%nat; cbn [get_geonames geonames];
          eexists; (split; [done|]); (split; [done|apply Hz]). }
    eexists. split; [done|]. split; simpl; [done|].
    intros p c v. rewrite Hf1.
    destruct (decide ((placeName, codes) = (p, c))) as [[= <- <-]|Hne].
    + rewrite lookup_insert_eq. by intros [= <-].
    + rewrite lookup_insert_ne by done. apply Hz.
Qed.

Lemma phase_one_nothing rows : ∀ df codes w,
  zero_tables w → (∀ ir, ir ∈ df → predID ir.2 = 0) →
  ∃ w', phase_one user api rows df codes w = (Ok (df, codes), w') ∧
        zero_tables w'.
Proof.
  induction rows as [|[index a] rows IH]; intros df codes w Hz Hdf.
  - by eexists.
  - cbn [phase_one]. unfold mbind, M_bind.
    destruct (findID_nothing (toponym a) None w Hz) as (w0 & -> & Hz0).
    cbn [not_found truthy]. rewrite at_predID_zero, app_nil_r by done.
    by apply IH.
Qed.

Lemma phase_two_nothing codesURL rows : ∀ df w,
  truthy (Some codesURL) = true →
  zero_tables w → (∀ ir, ir ∈ df → predID ir.2 = 0) →
  ∃ w', phase_two user api codesURL rows df w = (Ok df, w') ∧ zero_tables w'.
Proof.
  induction rows as [|[index a] rows IH]; intros df w Ht Hz Hdf.
  - by eexists.
  - cbn [phase_two]. unfold mbind, M_bind.
    destruct (findID_nothing (toponym a) (Some codesURL) w Hz) as (w0 & -> & Hz0).
    unfold not_found. rewrite Ht. rewrite at_predID_zero by done.
    by apply IH.
Qed.

Lemma processArticle_nothing data w :
  data ≠ [] → zero_tables w →
  ∃ w', processArticle O user api data w = (Ok (with_predID_0 data), w') ∧
        zero_tables w'.
Proof.
  intros Hne Hz. unfold processArticle.
  destruct data as [|a0 data0] eqn:Hdata; [done|]. rewrite <- Hdata.
  clear Hdata Hne a0 data0. unfold mbind, M_bind.
  destruct (phase_one_nothing data (with_predID_0 data) [] w Hz
              (with_predID_0_zero data)) as (w1 & -> & Hz1).
  apply phase_two_nothing; [apply makeString_truthy|done|].
  apply with_predID_0_zero.
Qed.

Lemma apply_groups_nothing keys df : ∀ w,
  (∀ key, key ∈ keys → group df key ≠ []) → zero_tables w →
  ∃ w', apply_groups O user api keys df w
        = (Ok (with_predID_0 (concat (group df <$> keys))), w').
Proof.
  induction keys as [|key keys IH]; intros w Hk Hz.
  - by eexists.
  - cbn [apply_groups]. unfold mbind, M_bind.
    destruct (processArticle_nothing (group df key) w) as (w0 & -> & Hz0);
      [apply Hk; left|done|].
    destruct (IH w0) as (w1 & ->); [intros k Hin; apply Hk; by right|done|].
    eexists. rewrite fmap_cons. simpl concat.
    unfold with_predID_0. by rewrite fmap_app.
Qed.

Lemma apply_baseline_nothing rows : ∀ w,
  zero_tables w →
  ∃ w', apply_baseline user api rows w = (Ok (with_predID_0 rows), w').
Proof.
  induction rows as [|[index a] rows IH]; intros w Hz.
  - by eexists.
  - cbn [apply_baseline]. unfold mbind, M_bind.
    destruct (findID_baseline_nothing (toponym a) w Hz) as (w0 & -> & Hz0).
    destruct (IH w0 Hz0) as (w1 & ->). by eexists.
Qed.
End nothing_found.

Lemma count_rows_none P (df : list row) :
  (∀ r, r ∈ df → P r = false) → count_rows P df = 0.
Proof.
  induction df as [|r df IH]; intros Hall; [done|].
  rewrite count_rows_cons, (Hall r) by left.
  rewrite IH; [done|]. intros x Hx. apply Hall. by right.
Qed.

Lemma group_nonempty (df : frame annotation) key :
  key ∈ (λ ia : nat * annotation, articleID ia.2) <$> df → group df key ≠ [].
Proof.
  intros Hin. apply list_elem_of_fmap in Hin as (ia & -> & Hin).
  intros E. assert (ia ∈ group df (articleID ia.2)) as H.
  { unfold group. by apply list_elem_of_filter. }
  rewrite E in H. inversion H.
Qed.

(** When no search finds a candidate and the tables hold no other result,
    readTSV returns in either mode, with the rows read and [predID] 0 in
    every one of them; if every expected id is non-zero, [agreement] on
    those rows raises [ZeroDivisionError]. *)
Theorem readTSV_nothing_found (O K : set_order) (user : string) (api : service)
    (df : frame annotation) (baseline : bool) (w : world) :
  finds_nothing api → zero_tables w →
  ∃ out w',
    readTSV O user api K df baseline w = (Ok out, w') ∧
    (∀ ir, ir ∈ out → predID ir.2 = 0) ∧
    annots out ≡ₚ df ∧
    ((∀ ia, ia ∈ df → geoID ia.2 ≠ 0) →
     agreement out.*2 = Raise ZeroDivisionError).
Proof.
  intros Hn Hz.
  assert (∃ rows w', readTSV O user api K df baseline w
                     = (Ok (with_predID_0 rows), w') ∧ rows ≡ₚ df)
    as (rows & w' & E & Hp).
  { unfold readTSV. destruct baseline.
    - destruct (apply_baseline_nothing user api Hn df w Hz) as (w' & E).
      by exists df, w'.
    - destruct (apply_groups_nothing O user api Hn
                  (set_iter K ((λ ia, articleID ia.2) <$> df)) df w) as (w' & E);
        [|done|].
      { intros key Hk. apply group_nonempty. by apply set_iter_elem in Hk. }
      eexists _, w'. split; [exact E|].
      apply groups_permutation; [apply set_iter_NoDup|].
      intros ia Hin. apply set_iter_elem, list_elem_of_fmap. by exists ia. }
  exists (with_predID_0 rows), w'. split_and!.
  - done.
  - apply with_predID_0_zero.
  - by rewrite annots_with_predID_0.
  - intros Hexp. apply agreement_zero_correct_raises, count_rows_none.
    intros r Hr. apply list_elem_of_fmap in Hr as ([i r'] & -> & Hin).
    pose proof (with_predID_0_zero _ _ Hin) as Hz0. simpl in *.
    unfold is_correct. rewrite Hz0. apply Z.eqb_neq.
    apply (Hexp (i, annot r')). rewrite <- Hp, <- (annots_with_predID_0 rows).
    by apply annots_elem.
Qed.

Lemma empty_api_finds_nothing : finds_nothing empty_api.
Proof. intros h URL. by exists 1%nat. Qed.

Lemma zero_tables_empty : zero_tables empty_world.
Proof. split; intros; simpl in *; by rewrite lookup_empty in *. Qed.

Lemma readTSV_nothing_found_witness :
  ∃ out w',
    readTSV listed_order sample_user empty_api listed_order repeated_article
      false empty_world = (Ok out, w') ∧
    (∀ ir, ir ∈ out → predID ir.2 = 0) ∧
    annots out ≡ₚ repeated_article ∧
    ((∀ ia, ia ∈ repeated_article → geoID ia.2 ≠ 0) →
     agreement out.*2 = Raise ZeroDivisionError).
Proof.
  apply (readTSV_nothing_found listed_order listed_order sample_user empty_api
           repeated_article false empty_world).
  - exact empty_api_finds_nothing.
  - exact zero_tables_empty.
Defined.

(** * Runs that return, with ids that fit the column *)

Lemma int64_0 : int64 0.
Proof. unfold int64. lia. Qed.

Lemma answers_in_range_well api : answers_in_range api → answers_well api.
Proof.
  intros H hist URL. destruct (H hist URL) as (cands & n & E & _).
  by exists cands, n.
Qed.

Lemma at_predID_int64 (df : frame row) index v :
  int64 v → (∀ ir, ir ∈ df → int64 (predID ir.2)) →
  ∀ ir, ir ∈ at_predID df index v → int64 (predID ir.2).
Proof.
  intros Hv Hdf ir Hin. unfold at_predID in Hin.
  apply list_elem_of_fmap in Hin as ([i r] & -> & Hin). simpl.
  destruct (i =? index)%nat; simpl; [done|]. by apply (Hdf (i, r)).
Qed.

Section returns_in_range.
Context (O : set_order) (user : string) (api : service).
Hypothesis api_ok : answers_in_range api.

Lemma findID_baseline_int64 placeName w id w' :
  tables_int64 w →
  findID_baseline user api placeName w = (Ok id, w') →
  int64 id ∧ tables_int64 w'.
Proof.
  intros [Hb Hf] E.
  destruct (baseline_cache w !! placeName) as [v|] eqn:Hc.
  - rewrite (findID_baseline_hit user api placeName v w Hc) in E.
    injection E as <- <-. split; [by eapply Hb|done].
  - rewrite (findID_baseline_miss user api placeName w Hc) in E.
    assert (∀ v w1, findID_baseline_body user api placeName w = (Ok v, w1) →
                    int64 v ∧ w1 = log_request (baseline_URL user placeName) w)
      as Hbody.
    { intros v w1.
      unfold findID_baseline_body, requests_get, lift, mbind, M_bind, mret, M_ret.
      destruct (api_ok (requests w) (baseline_URL user placeName))
        as (cands & n & -> & Hr).
      destruct (len_data _ =? 0)%nat;
        [intros [= <- <-]; split; [apply int64_0|done]|].
      destruct cands as [|c cands]; cbn [get_geonames geonames fmap list_fmap];
        intros [= <- <-]; (split; [|done]); [apply int64_0|].
      apply Hr. left. }
    destruct (findID_baseline_body user api placeName w) as [[v|e] w1];
      [|discriminate].
    injection E as <- <-. destruct (Hbody v w1 eq_refl) as [Hv ->].
    split; [done|]. split; simpl; [|done].
    intros p v'. destruct (decide (placeName = p)) as [<-|Hne].
    + rewrite lookup_insert_eq. by intros [= <-].
    + rewrite lookup_insert_ne by done. apply Hb.
Qed.

Lemma findID_body_int64 placeName codes w v w' :
  tables_int64 w →
  findID_body user api (placeName, codes) w = (Ok v, w') →
  int64 (result_id v) ∧ findID_cache w' = findID_cache w ∧
  ∀ p i, baseline_cache w' !! p = Some i → int64 i.
Proof.
  intros Hw.
  unfold findID_body, requests_get, lift, mbind, M_bind, mret, M_ret.
  destruct (truthy codes).
  - set (b := biased_URL user placeName (default "" codes)).
    destruct (api_ok (requests w) b) as (cands & n & -> & Hr).
    destruct (len_data _ =? 0)%nat;
      [intros [= <- <-]; split_and!; [apply int64_0|done|apply Hw]|].
    destruct cands as [|c cands]; cbn [get_geonames geonames fmap list_fmap].
    + destruct (findID_baseline user api placeName (log_request b w))
        as [[i|e] w2] eqn:E2; [|discriminate].
      intros [= <- <-].
      destruct (findID_baseline_effect user api placeName (log_request b w))
        as (r & w3 & E3 & _ & Hf3 & _).
      rewrite E2 in E3. injection E3 as <- <-.
      apply findID_baseline_int64 in E2 as [Hi Hw2]; [|by destruct Hw].
      split_and!; [done|done|apply Hw2].
    + intros [= <- <-]. split_and!; [apply Hr; left|done|apply Hw].
  - destruct (api_ok (requests w) (country_URL user placeName))
      as (cands & n & -> & Hr).
    destruct (len_data _ =? 0)%nat;
      [intros [= <- <-]; split_and!; [apply int64_0|done|apply Hw]|].
    destruct cands as [|c cands];
      [intros [= <- <-]; split_and!; [apply int64_0|done|apply Hw]|].
    cbn [get_geonames geonames]. rewrite fmap_cons.
    cbn [get_fcode to_json fcode].
    destruct (String.eqb (featureCode c) "CONT");
      [intros [= <- <-]; split_and!; [apply Hr; left|done|apply Hw]|].
    pose proof (scan_options_find (c :: cands)) as Hscan.
    rewrite fmap_cons in Hscan. rewrite Hscan.
    destruct (List.find _ (c :: cands)) as [c'|] eqn:Hfind.
    + intros [= <- <-]. split_and!; [|done|apply Hw].
      apply Hr, list_elem_of_In. by apply List.find_some in Hfind as [Hin _].
    + intros [= <- <-]. split_and!; [apply int64_0|done|apply Hw].
Qed.

Lemma findID_int64 placeName codes w v w' :
  tables_int64 w →
  findID user api placeName codes w = (Ok v, w') →
  int64 (result_id v) ∧ tables_int64 w'.
Proof.
  intros Hw E.
  destruct (findID_cache w !! (placeName, codes)) as [v0|] eqn:Hc.
  - rewrite (findID_hit user api placeName codes v0 w Hc) in E.
    injection E as <- <-. split; [by eapply (proj2 Hw)|done].
  - rewrite (findID_miss user api placeName codes w Hc) in E.
    destruct (findID_body user api (placeName, codes)
                (log_call (placeName, codes) w)) as [[v1|e] w1] eqn:E1;
      [|discriminate].
    injection E as <- <-.
    apply findID_body_int64 in E1 as (Hv & Hf & Hb); [|done].
    split; [done|]. split; simpl; [done|].
    intros k v'. rewrite Hf. simpl.
    destruct (decide ((placeName, codes) = k)) as [<-|Hne].
    + rewrite lookup_insert_eq. by intros [= <-].
    + rewrite lookup_insert_ne by done. apply Hw.
Qed.

Lemma phase_one_int64 rows : ∀ df codes w df1 codes1 w1,
  tables_int64 w → (∀ ir, ir ∈ df → int64 (predID ir.2)) →
  phase_one user api rows df codes w = (Ok (df1, codes1), w1) →
  tables_int64 w1 ∧ ∀ ir, ir ∈ df1 → int64 (predID ir.2).
Proof.
  induction rows as [|[index a] rows IH];
    intros df codes w df1 codes1 w1 Hw Hdf E.
  - by injection E as <- _ <-.
  - cbn [phase_one] in E. unfold mbind, M_bind in E.
    destruct (findID user api (toponym a) None w) as [[[id cc|id]|e] w0] eqn:E0;
      [|discriminate..].
    apply findID_int64 in E0 as [Hid Hw0]; [|done].
    eapply IH; [exact Hw0| |exact E]. by apply at_predID_int64.
Qed.

Lemma phase_two_int64 codesURL rows : ∀ df w out w',
  tables_int64 w → (∀ ir, ir ∈ df → int64 (predID ir.2)) →
  phase_two user api codesURL rows df w = (Ok out, w') →
  ∀ ir, ir ∈ out → int64 (predID ir.2).
Proof.
  induction rows as [|[index a] rows IH]; intros df w out w' Hw Hdf E.
  - by injection E as <- _.
  - cbn [phase_two] in E. unfold mbind, M_bind in E.
    destruct (findID user api (toponym a) (Some codesURL) w)
      as [[[id cc|id]|e] w0] eqn:E0; [discriminate| |discriminate].
    apply findID_int64 in E0 as [Hid Hw0]; [|done].
    eapply IH; [exact Hw0| |exact E]. by apply at_predID_int64.
Qed.
End returns_in_range.

(** If the service always answers with candidates that carry a feature code
    and an id in the 64-bit range, and the stored results have the shape of
    their mode and ids in that range, [processArticle] returns for every
    non-empty article, and every id it has written is in the range of the
    [predID] column. *)
Theorem processArticle_returns (O : set_order) (user : string) (api : service)
    (data : frame annotation) (w : world) :
  answers_in_range api → cache_fits w → tables_int64 w → data ≠ [] →
  ∃ out w',
    processArticle O user api data w = (Ok out, w') ∧
    ∀ ir, ir ∈ out → int64 (predID ir.2).
Proof.
  intros Hapi Hfit Hw Hne.
  destruct (processArticle_runs O user api (answers_in_range_well api Hapi)
              data w Hne Hfit) as (out & w' & E).
  exists out, w'. split; [done|].
  unfold processArticle in E.
  destruct data as [|a0 data0] eqn:Hdata; [done|]. rewrite <- Hdata in *.
  clear Hdata Hne a0 data0. unfold mbind, M_bind in E.
  destruct (phase_one user api data (with_predID_0 data) [] w)
    as [[[df1 codes]|e] w1] eqn:E1; [|discriminate].
  apply (phase_one_int64 user api Hapi) in E1 as [Hw1 Hdf1]; [|done|].
  - by eapply (phase_two_int64 user api Hapi).
  - intros ir Hin. rewrite (with_predID_0_zero _ _ Hin). apply int64_0.
Qed.

Lemma atlas_api_in_range : answers_in_range atlas_api.
Proof.
  intros hist URL. unfold atlas_api.
  destruct (String.eqb URL _).
  { exists [Nederland; Utrecht], 1%nat. split; [done|]. intros c Hc.
    repeat (apply elem_of_cons in Hc as [->|Hc]; [by vm_compute|]).
    inversion Hc. }
  destruct (String.eqb URL _).
  { exists [Utrecht], 1%nat. split; [done|]. intros c Hc.
    repeat (apply elem_of_cons in Hc as [->|Hc]; [by vm_compute|]).
    inversion Hc. }
  exists [], 1%nat. split; [done|]. intros c Hc. inversion Hc.
Qed.

Lemma tables_int64_empty : tables_int64 empty_world.
Proof. split; intros; simpl in *; by rewrite lookup_empty in *. Qed.

Lemma processArticle_returns_witness :
  ∃ out w',
    processArticle listed_order sample_user atlas_api sample_article empty_world
    = (Ok out, w') ∧
    ∀ ir, ir ∈ out → int64 (predID ir.2).
Proof.
  apply (processArticle_returns listed_order sample_user atlas_api
           sample_article empty_world).
  - exact atlas_api_in_range.
  - exact cache_fits_empty.
  - exact tables_int64_empty.
  - discriminate.
Defined.
